(** * Assembly statistics: a shallow embedding of [scripts/assembly_stats.py]

    The script loads a FASTA assembly, computes contiguity and composition
    statistics (N50/N90, L50/L90, GC and N content) and compares several
    assemblies.  Python's [int] is [Z]; Python's [float] is IEEE 754
    binary64, taken from the Standard Library's executable specification
    [SpecFloat] (round to nearest, ties to even); a function that can raise
    returns in the error monad [res]. *)

From Stdlib Require Import ZArith List Bool Ascii String Lia.
From Stdlib Require Import Sorting.Mergesort Sorting.Sorted Sorting.Permutation.
From Stdlib Require Import Orders.
From Stdlib Require Import Floats.SpecFloat.
Import ListNotations.
Local Open Scope Z_scope.

(** ** Exceptions and the error monad *)

Inductive exn : Type :=
| FileNotFoundError (msg : string)
| ValueError (msg : string)
| OverflowError (msg : string)
| ZeroDivisionError (msg : string)
| LibraryError (msg : string).

(** [str(e)] of an exception. *)
Definition exn_str (e : exn) : string :=
  match e with
  | FileNotFoundError m | ValueError m | OverflowError m
  | ZeroDivisionError m | LibraryError m => m
  end.

Definition res (A : Type) : Type := (exn + A)%type.

Definition ret {A} (a : A) : res A := inr a.
Definition raise {A} (e : exn) : res A := inl e.
Definition bind {A B} (c : res A) (k : A -> res B) : res B :=
  match c with
  | inl e => inl e
  | inr a => k a
  end.

Declare Scope res_scope.
Delimit Scope res_scope with res.
Notation "x <- c ;; k" := (bind c (fun x => k))
  (at level 61, c at next level, right associativity) : res_scope.
Local Open Scope res_scope.

(** ** binary64 and the mixed int/float operations the script uses *)

Module Float64.

Definition prec : Z := 53.
Definition emax : Z := 1024.

Definition float : Type := spec_float.

(** Conversion of a Python [int] to [float] (correctly rounded); CPython
    raises [OverflowError] when the integer is out of range. *)
Definition of_int (z : Z) : res float :=
  match binary_normalize prec emax z 0 false with
  | S754_infinity _ => raise (OverflowError "int too large to convert to float")
  | f => ret f
  end.

(** [a / b] on two Python ints: the correctly rounded quotient. *)
Definition int_truediv (a b : Z) : res float :=
  match b with
  | Z0 => raise (ZeroDivisionError "division by zero")
  | _ =>
    match a with
    | Z0 => ret (S754_zero (b <? 0))
    | _ =>
      match SFdiv prec emax
              (S754_finite (a <? 0) (Z.to_pos (Z.abs a)) 0)
              (S754_finite (b <? 0) (Z.to_pos (Z.abs b)) 0) with
      | S754_infinity _ =>
          raise (OverflowError "integer division result too large for a float")
      | f => ret f
      end
    end
  end.

(** [n * f] with [n] an int and [f] a float: [n] is converted first. *)
Definition int_mul (n : Z) (f : float) : res float :=
  nf <- of_int n ;; ret (SFmul prec emax nf f).

(** [f * n] with [f] a float and [n] an int. *)
Definition mul_int (f : float) (n : Z) : res float :=
  nf <- of_int n ;; ret (SFmul prec emax f nf).

(** [c >= t] with [c] an int and [t] a float: CPython compares the exact
    values, without rounding [c]. *)
Definition int_ge (c : Z) (t : float) : bool :=
  match t with
  | S754_nan => false
  | S754_infinity s => s
  | S754_zero _ => 0 <=? c
  | S754_finite s m e =>
      let v := if s then Zneg m else Zpos m in
      if 0 <=? e then v * 2 ^ e <=? c else v <=? c * 2 ^ (- e)
  end.

End Float64.


(** ** Python values, records and the statistics dictionary *)

Inductive pyval : Type :=
| PyInt (z : Z)
| PyFloat (f : Float64.float)
| PyStr (s : string)
| PyList (l : list Z).

(** A parsed FASTA record: identifier and residue string. *)
Record SeqRecord : Type := { rec_id : string; rec_seq : string }.

(** A [dict] with string keys, in insertion order. *)
Definition dict : Type := list (string * pyval).

Fixpoint dict_get (k : string) (d : dict) : option pyval :=
  match d with
  | [] => None
  | (k', v) :: d' => if String.eqb k' k then Some v else dict_get k d'
  end.

Definition dict_keys (d : dict) : list string := map fst d.

(** [d[k] = v]: overwrite in place, or append a new key. *)
Fixpoint dict_set (k : string) (v : pyval) (d : dict) : dict :=
  match d with
  | [] => [(k, v)]
  | (k', v') :: d' =>
      if String.eqb k' k then (k', v) :: d' else (k', v') :: dict_set k v d'
  end.

(** ** Built-ins *)

Definition len {A} (l : list A) : Z := Z.of_nat (List.length l).

Definition seq_len (r : SeqRecord) : Z := Z.of_nat (String.length (rec_seq r)).

Fixpoint sum (l : list Z) : Z :=
  match l with
  | [] => 0
  | a :: l' => a + sum l'
  end.

(** [s.count(c)] for a single character [c]. *)
Fixpoint count (c : ascii) (s : string) : Z :=
  match s with
  | EmptyString => 0
  | String a s' => (if Ascii.eqb a c then 1 else 0) + count c s'
  end.

(** [max(l)] and [min(l)] on a non-empty list (the script guards the call). *)
Definition max_list (l : list Z) : Z :=
  match l with
  | [] => 0
  | a :: l' => fold_left Z.max l' a
  end.

Definition min_list (l : list Z) : Z :=
  match l with
  | [] => 0
  | a :: l' => fold_left Z.min l' a
  end.

(** [lengths.sort(reverse=True)]. *)
Module ZDescending <: TotalLeBool.
Definition t : Type := Z.
Definition leb (a b : Z) : bool := b <=? a.
Definition leb_total (a b : Z) : leb a b = true \/ leb b a = true :=
  match Z.le_ge_cases b a with
  | or_introl H => or_introl (proj2 (Z.leb_le b a) H)
  | or_intror H => or_intror (proj2 (Z.leb_le a b) H)
  end.
End ZDescending.

Module SortDescending := Sort ZDescending.

Definition sort_reverse (l : list Z) : list Z := SortDescending.sort l.

(** [np.median] on a non-empty list of integers: the middle element of the
    sorted values, or the float mean of the two middle ones. *)
Definition np_median (l : list Z) : res pyval :=
  let s := sort_reverse l in
  let n := List.length s in
  if Nat.odd n then
    f <- Float64.of_int (nth (n / 2) s 0) ;; ret (PyFloat f)
  else
    a <- Float64.of_int (nth (n / 2 - 1) s 0) ;;
    b <- Float64.of_int (nth (n / 2) s 0) ;;
    two <- Float64.of_int 2 ;;
    ret (PyFloat (SFdiv Float64.prec Float64.emax
                    (SFadd Float64.prec Float64.emax a b) two)).

(** ** Nx and Lx *)

(** [total * (x / 100)]. *)
Definition target_of (total x : Z) : res Float64.float :=
  frac <- Float64.int_truediv x 100 ;; Float64.int_mul total frac.

(** The loop of [calculate_nx]; [Some] is the [return] inside the loop. *)
Fixpoint nx_loop (target : Float64.float) (cumulative : Z) (lengths : list Z)
  : option Z :=
  match lengths with
  | [] => None
  | length :: rest =>
      let cumulative := cumulative + length in
      if Float64.int_ge cumulative target then Some length
      else nx_loop target cumulative rest
  end.

(** [calculate_nx] is a closure over [total_length]. *)
Definition calculate_nx (total_length : Z) (lengths : list Z) (x : Z) : res Z :=
  target <- target_of total_length x ;;
  ret (match nx_loop target 0 lengths with
       | Some length => length
       | None => 0
       end).

(** The loop of [_calculate_lx], over [enumerate(lengths, 1)]. *)
Fixpoint lx_loop (target : Float64.float) (cumulative i : Z) (lengths : list Z)
  : option Z :=
  match lengths with
  | [] => None
  | length :: rest =>
      let cumulative := cumulative + length in
      if Float64.int_ge cumulative target then Some i
      else lx_loop target cumulative (i + 1) rest
  end.

Definition _calculate_lx (lengths : list Z) (x : Z) : res Z :=
  target <- target_of (sum lengths) x ;;
  ret (match lx_loop target 0 1 lengths with
       | Some i => i
       | None => len lengths
       end).

(** The Nx values that [plot_nx_curve] plots, for the given [x_values]
    ([range(1, 100)] in the script); a value is appended only when the
    inner loop reaches its [break]. *)
Fixpoint nx_curve (total_length : Z) (lengths : list Z) (x_values : list Z)
  : res (list Z) :=
  match x_values with
  | [] => ret []
  | x :: xs =>
      target <- target_of total_length x ;;
      tl <- nx_curve total_length lengths xs ;;
      ret (match nx_loop target 0 lengths with
           | Some length => length :: tl
           | None => tl
           end)
  end.

(** ** [_calculate_stats] *)

Definition gc_count (r : SeqRecord) : Z :=
  count "G" (rec_seq r) + count "C" (rec_seq r)
  + count "g" (rec_seq r) + count "c" (rec_seq r).

Definition n_count (r : SeqRecord) : Z :=
  count "N" (rec_seq r) + count "n" (rec_seq r).

(** [(part / total_length) * 100 if total_length > 0 else 0]. *)
Definition percentage (part total_length : Z) : res pyval :=
  if 0 <? total_length then
    q <- Float64.int_truediv part total_length ;;
    p <- Float64.mul_int q 100 ;;
    ret (PyFloat p)
  else ret (PyInt 0).

Definition _calculate_stats (file : string) (sequences : list SeqRecord)
  : res dict :=
  let lengths := sort_reverse (map seq_len sequences) in
  let total_length := sum lengths in
  let num_contigs := len lengths in
  let total_gc := sum (map gc_count sequences) in
  gc_content <- percentage total_gc total_length ;;
  let total_n := sum (map n_count sequences) in
  n_content <- percentage total_n total_length ;;
  mean_length <-
    (if 0 <? num_contigs then
       m <- Float64.int_truediv total_length num_contigs ;; ret (PyFloat m)
     else ret (PyInt 0)) ;;
  median_length <-
    (match lengths with [] => ret (PyInt 0) | _ => np_median lengths end) ;;
  n50 <- calculate_nx total_length lengths 50 ;;
  n90 <- calculate_nx total_length lengths 90 ;;
  l50 <- _calculate_lx lengths 50 ;;
  l90 <- _calculate_lx lengths 90 ;;
  ret [ ("file", PyStr file);
        ("num_contigs", PyInt num_contigs);
        ("total_length", PyInt total_length);
        ("longest_contig", PyInt (max_list lengths));
        ("shortest_contig", PyInt (min_list lengths));
        ("mean_length", mean_length);
        ("median_length", median_length);
        ("n50", PyInt n50);
        ("n90", PyInt n90);
        ("l50", PyInt l50);
        ("l90", PyInt l90);
        ("gc_content", gc_content);
        ("n_content", n_content);
        ("lengths", PyList lengths) ]%string.

(** [get_basic_stats]: every item of the dictionary but ['lengths']. *)
Definition get_basic_stats_of (stats : dict) : dict :=
  filter (fun kv => negb (String.eqb (fst kv) "lengths")) stats.

(** ** The analyzer object and its collaborators *)

(** What the script gets from its libraries and from the file system:
    [Path(p).exists()], [list(SeqIO.parse(p, "fasta"))] (which may raise),
    [str(Path(p))], [Path(p).stem] and [Path(d) / name]. *)
Record World : Type := {
  path_exists : string -> bool;
  SeqIO_parse : string -> res (list SeqRecord);
  path_str : string -> string;
  path_stem : string -> string;
  path_join : string -> string -> string
}.

Record AssemblyAnalyzer : Type := {
  assembly_file : string;
  sequences : list SeqRecord;
  stats : dict
}.

(** [try: body except Exception as e: handler(e)]. *)
Definition try_except {A} (body : res A) (handler : exn -> res A) : res A :=
  match body with
  | inl e => handler e
  | inr a => inr a
  end.

Section Analyzer.

Variable w : World.

Definition _load_sequences (file : string) : res (list SeqRecord) :=
  try_except
    (seqs <- SeqIO_parse w file ;;
     match seqs with
     | [] => raise (ValueError "No sequences found in the assembly file")
     | _ => ret seqs
     end)
    (fun e =>
       raise (ValueError ("Error reading assembly file: " ++ exn_str e)%string)).

Definition __init__ (file : string) : res AssemblyAnalyzer :=
  if negb (path_exists w file) then
    raise (FileNotFoundError ("Assembly file not found: " ++ file)%string)
  else
    seqs <- _load_sequences file ;;
    st <- _calculate_stats (path_str w file) seqs ;;
    ret {| assembly_file := path_str w file; sequences := seqs; stats := st |}.

Definition get_basic_stats (a : AssemblyAnalyzer) : dict :=
  get_basic_stats_of (stats a).

(** *** [compare_assemblies] *)

(** What the function writes or shows, in order. *)
Inductive event : Type :=
| Stdout (line : string)
| Table (columns : list string) (rows : list dict)
| BarFigure (names : list string) (analyzers : list AssemblyAnalyzer)
| SaveFig (file : string)
| ToCsv (file : string) (rows : list dict)
| PltShow.

(** The first loop: analyzers and names of the inputs that load, and one
    printed line per input that does not. *)
Fixpoint load_all (assembly_files : list string)
  : list AssemblyAnalyzer * list string * list event :=
  match assembly_files with
  | [] => ([], [], [])
  | file :: rest =>
      let '(analyzers, names, out) := load_all rest in
      match __init__ file with
      | inr analyzer => (analyzer :: analyzers, path_stem w file :: names, out)
      | inl e =>
          (analyzers, names,
           Stdout ("Error processing " ++ file ++ ": " ++ exn_str e)%string :: out)
      end
  end.

Definition comparison_cols : list string :=
  ["assembly"; "num_contigs"; "total_length"; "n50"; "gc_content"]%string.

Definition select_cols (cols : list string) (row : dict) : dict :=
  flat_map (fun c => match dict_get c row with
                     | Some v => [(c, v)]
                     | None => []
                     end) cols.

(** [if output_dir:] on an optional string: [None] and [''] are false. *)
Definition truthy (o : option string) : bool :=
  match o with
  | None | Some EmptyString => false
  | Some _ => true
  end.

Definition rule (n : nat) : string :=
  string_of_list_ascii (repeat "="%char n).

Definition compare_assemblies (assembly_files : list string)
           (output_dir : option string) : list event :=
  let '(analyzers, names, out) := load_all assembly_files in
  if len analyzers <? 2 then
    out ++ [Stdout "Need at least 2 valid assemblies for comparison"]
  else
    let comparison_data :=
      map (fun an => dict_set "assembly" (PyStr (snd an))
                       (get_basic_stats (fst an)))
          (combine analyzers names) in
    out
    ++ [Stdout (String "010" "Assembly Comparison:");
        Stdout (rule 80);
        Table comparison_cols
                   (map (select_cols comparison_cols) comparison_data);
        Stdout (rule 80);
        BarFigure names analyzers]
    ++ (if truthy output_dir then
          let dir := match output_dir with Some d => d | None => EmptyString end in
          let output_file := path_join w dir "assembly_comparison.png" in
          let table_file := path_join w dir "assembly_comparison.tsv" in
          [SaveFig output_file;
           Stdout ("Comparison plot saved to: " ++ output_file)%string;
           ToCsv table_file comparison_data;
           Stdout ("Comparison table saved to: " ++ table_file)%string]
        else [PltShow]).

End Analyzer.

(** * Specification-side definitions

    What the claims talk about, written from the specification's words and
    compared below with the functions embedded above. *)

(** Sorted in descending order. *)
Definition descending (l : list Z) : Prop := StronglySorted (fun a b => b <= a) l.

(** The cumulative sum [cumulative] reaches or exceeds [total * x / 100],
    in exact arithmetic. *)
Definition reaches (total x cumulative : Z) : bool := total * x <=? 100 * cumulative.

(** Nx by the specification: walk the lengths in descending order and return
    the length at which the running sum first reaches the target; 0 when
    there is nothing to walk. *)
Fixpoint nx_walk (total x cumulative : Z) (sorted : list Z) : Z :=
  match sorted with
  | [] => 0
  | l :: rest =>
      if reaches total x (cumulative + l) then l
      else nx_walk total x (cumulative + l) rest
  end.

Definition nx_spec (lengths : list Z) (x : Z) : Z :=
  nx_walk (sum lengths) x 0 (sort_reverse lengths).

(** Lx by the specification: the number of records consumed when the running
    sum first reaches the target; the total record count when it never does. *)
Fixpoint lx_walk (total x cumulative consumed : Z) (sorted : list Z) : Z :=
  match sorted with
  | [] => consumed
  | l :: rest =>
      if reaches total x (cumulative + l) then consumed + 1
      else lx_walk total x (cumulative + l) (consumed + 1) rest
  end.

Definition lx_spec (lengths : list Z) (x : Z) : Z :=
  lx_walk (sum lengths) x 0 0 (sort_reverse lengths).

(** Residue classes for composition counting. *)
Definition is_gc (a : ascii) : bool :=
  (Ascii.eqb a "G" || Ascii.eqb a "C" || Ascii.eqb a "g" || Ascii.eqb a "c")%bool.

Definition is_n (a : ascii) : bool := (Ascii.eqb a "N" || Ascii.eqb a "n")%bool.


(** Number of characters of [s] that satisfy [p]. *)
Fixpoint count_if (p : ascii -> bool) (s : string) : Z :=
  match s with
  | EmptyString => 0
  | String a s' => (if p a then 1 else 0) + count_if p s'
  end.

(** All residues of a sequence set, record after record. *)
Definition residues (seqs : list SeqRecord) : string :=
  fold_right String.append EmptyString (map rec_seq seqs).

(** The opposite-case variant of an ASCII letter; other characters are kept. *)
Definition swapcase (a : ascii) : ascii :=
  let n := nat_of_ascii a in
  if ((65 <=? n) && (n <=? 90))%nat then ascii_of_nat (n + 32)
  else if ((97 <=? n) && (n <=? 122))%nat then ascii_of_nat (n - 32)
  else a.

(** [s'] is [s] with any of its characters replaced by the opposite case. *)
Inductive case_variant : string -> string -> Prop :=
| cv_empty : case_variant EmptyString EmptyString
| cv_keep a s s' : case_variant s s' -> case_variant (String a s) (String a s')
| cv_swap a s s' : case_variant s s' -> case_variant (String a s) (String (swapcase a) s').

Definition case_permuted (seqs seqs' : list SeqRecord) : Prop :=
  Forall2 (fun r r' => case_variant (rec_seq r) (rec_seq r')) seqs seqs'.

(** The dictionary [_calculate_stats] builds, as a function of its items. *)
Definition stats_dict (file : string) (lengths : list Z)
  (mean median : pyval) (n50 n90 l50 l90 : Z) (gc nc : pyval) : dict :=
  [ ("file", PyStr file);
    ("num_contigs", PyInt (len lengths));
    ("total_length", PyInt (sum lengths));
    ("longest_contig", PyInt (max_list lengths));
    ("shortest_contig", PyInt (min_list lengths));
    ("mean_length", mean);
    ("median_length", median);
    ("n50", PyInt n50);
    ("n90", PyInt n90);
    ("l50", PyInt l50);
    ("l90", PyInt l90);
    ("gc_content", gc);
    ("n_content", nc);
    ("lengths", PyList lengths) ]%string.

(** The keys of the persisted summaries, in order. *)
Definition basic_keys : list string :=
  ["file"; "num_contigs"; "total_length"; "longest_contig"; "shortest_contig";
   "mean_length"; "median_length"; "n50"; "n90"; "l50"; "l90";
   "gc_content"; "n_content"]%string.

Section Components.

Variable w : World.


(** The analyzers of the inputs that load, in input order. *)
Definition loaded (assembly_files : list string) : list AssemblyAnalyzer :=
  flat_map (fun file => match __init__ w file with
                        | inr a => [a]
                        | inl _ => []
                        end) assembly_files.

(** One printed line per input that fails to load, in input order. *)
Definition warnings (assembly_files : list string) : list event :=
  flat_map (fun file =>
              match __init__ w file with
              | inr _ => []
              | inl e => [Stdout ("Error processing " ++ file ++ ": " ++ exn_str e)]
              end) assembly_files.

End Components.

(** Everything [compare_assemblies] emits besides printed lines. *)
Definition is_comparison_output (ev : event) : bool :=
  match ev with
  | Stdout _ => false
  | _ => true
  end.

(** ** Concrete inputs used to exercise the theorems *)

Definition example_records : list SeqRecord :=
  [ {| rec_id := "contig_1"; rec_seq := "GGCC" |};
    {| rec_id := "contig_2"; rec_seq := "AATT" |};
    {| rec_id := "contig_3"; rec_seq := "AATTNX" |} ].

Definition example_gc_records : list SeqRecord :=
  [ {| rec_id := "a"; rec_seq := "AATT" |};
    {| rec_id := "b"; rec_seq := "GGCC" |};
    {| rec_id := "c"; rec_seq := "AATT" |} ].

(** A file system with two parsable assemblies, [good.fasta] and
    [other.fasta], and a file that is not FASTA, [notes.txt]. *)
Definition example_world : World :=
  {| path_exists := fun p =>
       (String.eqb p "good.fasta" || String.eqb p "other.fasta"
        || String.eqb p "notes.txt")%bool;
     SeqIO_parse := fun p =>
       if String.eqb p "good.fasta" then inr example_records
       else if String.eqb p "other.fasta" then inr example_gc_records
       else inl (LibraryError "not a FASTA file");
     path_str := fun p => p;
     path_stem := fun p => p;
     path_join := fun d n => (d ++ "/" ++ n)%string |}.

Definition example_stats : dict :=
  match _calculate_stats "good.fasta" example_records with
  | inr st => st
  | inl _ => []
  end.


Definition example_analyzer : AssemblyAnalyzer :=
  {| assembly_file := "good.fasta";
     sequences := example_records;
     stats := example_stats |}.

(** * Rounding: definitions used to reason about binary64 products *)

Module Rounding.

Import Float64.

(** Rounding of the exact value [m * 2 ^ e] (sign [s]) to binary64. *)
Definition bra := binary_round_aux prec emax.

(** Round to nearest, ties to even, of [M / 2 ^ n]. *)
Definition rne (M n : Z) : Z :=
  let q := M / 2 ^ n in
  match 2 * (M mod 2 ^ n) ?= 2 ^ n with
  | Lt => q
  | Eq => if Z.even q then q else q + 1
  | Gt => q + 1
  end.

(** Amount by which rounding shifts [M * 2 ^ e] to the right. *)
Definition shift_amt (e M : Z) : Z :=
  Z.max 0 (fexp prec emax (Zdigits2 M + e) - e).

(** The rounded value of [M * 2 ^ e], in units of [2 ^ e]. *)
Definition rnd_val (e M : Z) : Z :=
  rne M (shift_amt e M) * 2 ^ shift_amt e M.

(** [V * 2 ^ e <= c], on integers. *)
Definition scaled_le (V e c : Z) : bool :=
  if 0 <=? e then V * 2 ^ e <=? c else V <=? c * 2 ^ (- e).

(** The rounded value is finite. *)
Definition fits (e V : Z) : Prop :=
  V = 0 \/ Z.max e (fexp prec emax (Zdigits2 V + e)) <= emax - prec.

(** [x / 100] as a multiple of [2 ^ -59]. *)
Definition frac_scaled (x : Z) : option Z :=
  match int_truediv x 100 with
  | inr (S754_finite false m e) =>
      if (Zdigits2 (Zpos m) =? 53) && (-59 <=? e)
      then Some (Zpos m * 2 ^ (e + 59)) else None
  | _ => None
  end.

(** The percentages 1, ..., 100. *)
Definition percents : list Z := map Z.of_nat (seq 1 100).

(** Table check: both fractions are normal, at most 1, and ordered like
    their percentages. *)
Definition frac_pair_ok (x1 x2 : Z) : bool :=
  match frac_scaled x1, frac_scaled x2 with
  | Some a, Some b => (x2 <? x1) || ((0 <? a) && (a <=? b) && (b <=? 2 ^ 59))
  | _, _ => false
  end.

(** A target is below another when every integer that reaches the second
    reaches the first. *)
Definition target_le (t1 t2 : float) : Prop :=
  forall c, int_ge c t2 = true -> int_ge c t1 = true.

End Rounding.

(** * Further definitions

    Bounds on quotients, the Nx curve of [plot_nx_curve], the rows of
    [compare_assemblies] and the command line of [main]. *)

(** [c <= t] with [c] an int and [t] a float: Python compares the exact
    values. *)
Definition int_le (c : Z) (t : Float64.float) : bool :=
  match t with
  | S754_nan => false
  | S754_infinity s => negb s
  | S754_zero _ => c <=? 0
  | S754_finite s m e =>
      let v := if s then Zneg m else Zpos m in
      if 0 <=? e then c <=? v * 2 ^ e else c * 2 ^ (- e) <=? v
  end.

(** The position of a remainder as two extra mantissa bits. *)
Definition loc_code (l : location) : Z :=
  match l with
  | loc_Exact => 0
  | loc_Inexact Lt => 1
  | loc_Inexact Eq => 2
  | loc_Inexact Gt => 3
  end.

(** [c <= V * 2 ^ e], on integers. *)
Definition scaled_ge (V e c : Z) : bool :=
  if 0 <=? e then c <=? V * 2 ^ e else c * 2 ^ (- e) <=? V.

(** ** [plot_nx_curve] *)

(** [range(a, b)]. *)
Definition range (a b : Z) : list Z :=
  map (fun i => a + Z.of_nat i) (seq 0 (Z.to_nat (b - a))).

(** What [plot_nx_curve] draws: the two lists given to [plt.plot] and the
    height of the horizontal N50 line given to [plt.axhline]. *)
Record NxFigure : Type := {
  plot_x : list Z;
  plot_y : list Z;
  axhline_y : pyval
}.

(** [plot_nx_curve], as a function of the two entries of [self.stats] it
    reads, [stats_lengths] for [self.stats['lengths']] and [stats_n50] for
    [self.stats['n50']], and of [output_file] (a path is given by its
    string).  It returns the figure and what is written or shown.
    [plt.plot] raises [ValueError] when its two lists differ in length (the
    message, which also names the two shapes, is abbreviated). *)
Definition plot_nx_curve (stats_lengths : list Z) (stats_n50 : pyval)
           (output_file : option string) : res (NxFigure * list event) :=
  let lengths := sort_reverse stats_lengths in
  let total_length := sum lengths in
  let x_values := range 1 100 in
  nx_values <- nx_curve total_length lengths x_values ;;
  if negb (len x_values =? len nx_values) then
    raise (ValueError "x and y must have same first dimension")
  else
    ret ({| plot_x := x_values; plot_y := nx_values; axhline_y := stats_n50 |},
         if truthy output_file then
           let f := match output_file with Some f => f | None => EmptyString end in
           [SaveFig f; Stdout ("Nx curve plot saved to: " ++ f)%string]
         else [PltShow]).

(** ** Rows of the comparison *)

(** [row] is the entry of [comparison_data] for the analyzer [a]: [a] was
    built from one of the input files, the row has the keys of the basic
    statistics followed by ['assembly'], which holds the stem of that file,
    its other values are those of [a.stats], and the printed table shows
    its five comparison columns. *)
Definition comparison_row_ok (w : World) (files : list string)
           (a : AssemblyAnalyzer) (row : dict) : Prop :=
  exists file,
    In file files /\ __init__ w file = inr a /\
    dict_keys row = basic_keys ++ ["assembly"%string] /\
    dict_get "assembly" row = Some (PyStr (path_stem w file)) /\
    (forall k, In k basic_keys -> dict_get k row = dict_get k (stats a)) /\
    dict_keys (select_cols comparison_cols row) = comparison_cols /\
    (forall k, In k comparison_cols ->
               dict_get k (select_cols comparison_cols row) = dict_get k row).

(** ** [main] *)

(** The namespace [parser.parse_args()] returns. *)
Record Args : Type := {
  args_input : list string;
  args_output : option string;
  args_json : option string;
  args_tsv : option string;
  args_plot : bool;
  args_compare : bool;
  args_bins : Z
}.

(** The reporting methods [main] calls on the analyzer, with their
    arguments. *)
Inductive method_call : Type :=
| Call_print_stats (self : AssemblyAnalyzer)
| Call_save_stats_json (self : AssemblyAnalyzer) (output_file : string)
| Call_save_stats_tsv (self : AssemblyAnalyzer) (output_file : string)
| Call_plot_length_distribution (self : AssemblyAnalyzer)
    (output_file : option string) (bins : Z)
| Call_plot_nx_curve (self : AssemblyAnalyzer) (output_file : option string).

(** What [main] does, in order: [Path(dir).mkdir(parents=True,
    exist_ok=True)], a method call, an output of [main] itself or of
    [compare_assemblies], and [sys.exit(code)]. *)
Inductive action : Type :=
| Mkdir (dir : string)
| Call (m : method_call)
| Out (ev : event)
| SysExit (code : Z).

(** A computation that leaves a trace of actions and returns or raises. *)
Definition io (A : Type) : Type := (list action * res A)%type.

Definition io_ret {A} (a : A) : io A := ([], inr a).

Definition io_bind {A B} (c : io A) (k : A -> io B) : io B :=
  match c with
  | (tr, inl e) => (tr, inl e)
  | (tr, inr a) => let '(tr', r) := k a in (tr ++ tr', r)
  end.

Definition emit (x : action) : io unit := ([x], inr tt).

Definition lift {A} (c : res A) : io A := ([], c).

(** [try: body except Exception as e: handler(e)], keeping the trace of
    [body] up to the exception. *)
Definition io_try {A} (body : io A) (handler : exn -> io A) : io A :=
  match body with
  | (tr, inl e) => let '(tr', r) := handler e in (tr ++ tr', r)
  | (tr, inr a) => (tr, inr a)
  end.

(** [if b: c]. *)
Definition when (b : bool) (c : io unit) : io unit := if b then c else io_ret tt.

(** The string of an option that is known to be true. *)
Definition str_of (o : option string) : string :=
  match o with Some s => s | None => EmptyString end.

Declare Scope io_scope.
Delimit Scope io_scope with io.
Notation "x <- c ;; k" := (io_bind c (fun x => k))
  (at level 61, c at next level, right associativity) : io_scope.

Section Main.

Variable w : World.

(** The file system and the libraries behind the reporting methods:
    [mkdir] and each method call return or raise. *)
Variable mkdir : string -> res unit.
Variable run : method_call -> res unit.

Definition call (m : method_call) : io unit := ([Call m], run m).

(** [main], after [parse_args].  [args.input[0]] is read under the guard
    [len(args.input) == 1]. *)
Definition main (args : Args) : io unit :=
 (_ <- when (truthy (args_output args))
            ([Mkdir (str_of (args_output args))], mkdir (str_of (args_output args))) ;;
  if (len (args_input args) =? 1) && negb (args_compare args) then
    io_try
      (analyzer <- lift (__init__ w (nth 0 (args_input args) EmptyString)) ;;
       _ <- call (Call_print_stats analyzer) ;;
       _ <- when (truthy (args_json args))
                 (call (Call_save_stats_json analyzer (str_of (args_json args)))) ;;
       _ <- when (truthy (args_tsv args))
                 (call (Call_save_stats_tsv analyzer (str_of (args_tsv args)))) ;;
       if args_plot args && truthy (args_output args) then
         let length_plot :=
           path_join w (str_of (args_output args)) "length_distribution.png" in
         let nx_plot := path_join w (str_of (args_output args)) "nx_curve.png" in
         _ <- call (Call_plot_length_distribution analyzer (Some length_plot)
                      (args_bins args)) ;;
         call (Call_plot_nx_curve analyzer (Some nx_plot))
       else if args_plot args then
         _ <- call (Call_plot_length_distribution analyzer None (args_bins args)) ;;
         call (Call_plot_nx_curve analyzer None)
       else io_ret tt)
      (fun e =>
         _ <- emit (Out (Stdout ("Error analyzing assembly: " ++ exn_str e))) ;;
         emit (SysExit 1))
  else if (1 <? len (args_input args)) || args_compare args then
    (map Out (compare_assemblies w (args_input args) (args_output args)), inr tt)
  else
    _ <- emit (Out (Stdout "Error: Please provide at least one input file")) ;;
    emit (SysExit 1))%io.

End Main.

(** ** Concrete command lines used to exercise the theorems *)

(** A file system where every directory can be created, and reporting
    methods that return. *)
Definition example_mkdir (dir : string) : res unit := inr tt.

Definition example_run (m : method_call) : res unit := inr tt.

(** [-i missing.fasta --json stats.json --plot]. *)
Definition example_args : Args :=
  {| args_input := ["missing.fasta"%string];
     args_output := None;
     args_json := Some "stats.json"%string;
     args_tsv := None;
     args_plot := true;
     args_compare := false;
     args_bins := 50 |}.

(** [-i good.fasta -o out --compare]. *)
Definition example_compare_args : Args :=
  {| args_input := ["good.fasta"%string];
     args_output := Some "out"%string;
     args_json := None;
     args_tsv := None;
     args_plot := false;
     args_compare := true;
     args_bins := 50 |}.

(** * Proof automation *)

(** Inversion of a successful [bind]. *)
Ltac inv_bind H :=
  match type of H with
  | bind ?c _ = inr _ =>
      let E := fresh "E" in
      destruct c eqn:E; [discriminate H|cbn [bind] in H]
  end.


(** * Facts about binary64 rounding

    [binary_round_aux] is characterised by an integer function, [rnd_val];
    from there: rounding is monotone, it never crosses a point of the grid
    it rounds to, and the targets [total * (x / 100)] are ordered like [x]. *)

Module RoundingFacts.

Import Float64 Rounding.

(** ** Powers of two and digit counts *)

Lemma pow2_pos k : 0 <= k -> 0 < 2 ^ k.
Proof. intros; apply Z.pow_pos_nonneg; lia. Qed.

Lemma pow2_mod_0 a b : 0 <= b <= a -> 2 ^ a mod 2 ^ b = 0.
Proof.
  intros H. replace a with ((a - b) + b) by lia.
  rewrite Z.pow_add_r by lia. apply Z.mod_mul.
  pose proof (pow2_pos b); lia.
Qed.

Lemma digits2_pos_size p : digits2_pos p = Pos.size p.
Proof. induction p; simpl; congruence. Qed.

Lemma Zdigits2_bounds M : 0 < M -> 2 ^ (Zdigits2 M - 1) <= M < 2 ^ Zdigits2 M.
Proof.
  intros H. destruct M as [|p|p]; try lia. simpl Zdigits2.
  rewrite digits2_pos_size.
  pose proof (Pos.size_gt p) as Hgt. pose proof (Pos.size_le p) as Hle.
  split.
  - assert (2 ^ Z.pos (Pos.size p) <= 2 * Z.pos p).
    { change (2 * Z.pos p) with (Z.pos p~0). rewrite <- Pos2Z.inj_pow. lia. }
    replace (Z.pos (Pos.size p)) with (Z.succ (Z.pos (Pos.size p) - 1)) in H0 by lia.
    rewrite Z.pow_succ_r in H0 by lia. lia.
  - rewrite <- Pos2Z.inj_pow. lia.
Qed.

Lemma Zdigits2_unique M d : 2 ^ (d - 1) <= M < 2 ^ d -> 0 < M -> Zdigits2 M = d.
Proof.
  intros [Hlo Hhi] HM. pose proof (Zdigits2_bounds M HM) as [Blo Bhi].
  assert (0 < Zdigits2 M) by (destruct M; simpl; lia).
  assert (0 < d).
  { destruct (Z_lt_le_dec 0 d); auto.
    assert (2 ^ d <= 2 ^ 0) by (apply Z.pow_le_mono_r; lia). simpl in *. lia. }
  assert (d - 1 < Zdigits2 M).
  { apply (Z.pow_lt_mono_r_iff 2); try lia. }
  assert (Zdigits2 M - 1 < d).
  { apply (Z.pow_lt_mono_r_iff 2); try lia. }
  lia.
Qed.

Lemma Zdigits2_pos M : 0 < M -> 0 < Zdigits2 M.
Proof. destruct M; simpl; lia. Qed.

Lemma Zdigits2_mono M1 M2 : 0 < M1 <= M2 -> Zdigits2 M1 <= Zdigits2 M2.
Proof.
  intros H. pose proof (Zdigits2_bounds M1 ltac:(lia)) as [B1 _].
  pose proof (Zdigits2_bounds M2 ltac:(lia)) as [_ B2].
  pose proof (Zdigits2_pos M2 ltac:(lia)).
  assert (Zdigits2 M1 - 1 < Zdigits2 M2).
  { apply (Z.pow_lt_mono_r_iff 2); lia. }
  lia.
Qed.

Lemma Zdigits2_mul_pow2 M k : 0 < M -> 0 <= k -> Zdigits2 (M * 2 ^ k) = Zdigits2 M + k.
Proof.
  intros HM Hk. pose proof (Zdigits2_bounds M HM) as [Blo Bhi].
  pose proof (Zdigits2_pos M HM).
  assert (0 < 2 ^ k) by (apply Z.pow_pos_nonneg; lia).
  apply Zdigits2_unique; [|nia].
  replace (Zdigits2 M + k - 1) with ((Zdigits2 M - 1) + k) by lia.
  rewrite !Z.pow_add_r by lia. split; nia.
Qed.

Lemma Zdigits2_le_of_lt V k : 0 < V -> 0 <= k -> V <= 2 ^ k -> Zdigits2 V <= k + 1.
Proof.
  intros HV Hk H. pose proof (Zdigits2_bounds V HV) as [Vlo _].
  destruct (Z_le_gt_dec (Zdigits2 V) (k + 1)); auto.
  assert (2 ^ (k + 1) <= 2 ^ (Zdigits2 V - 1)) by (apply Z.pow_le_mono_r; lia).
  rewrite Z.pow_add_r in H0 by lia. pose proof (pow2_pos k Hk). lia.
Qed.

Lemma fexp_eq x : fexp prec emax x = Z.max (x - 53) (-1074).
Proof. reflexivity. Qed.

(** ** The shift loop of [SpecFloat] *)

(** [iter_pos] is plain iteration. *)
Lemma iter_pos_nat {A} (f : A -> A) p x :
  iter_pos f p x = Nat.iter (Pos.to_nat p) f x.
Proof.
  revert x. induction p as [p IH|p IH|]; intros x; simpl iter_pos.
  - rewrite !IH. rewrite Pos2Nat.inj_xI.
    replace (S (2 * Pos.to_nat p)) with (Pos.to_nat p + (Pos.to_nat p + 1))%nat by lia.
    rewrite !Nat.iter_add. simpl. reflexivity.
  - rewrite !IH. rewrite Pos2Nat.inj_xO.
    replace (2 * Pos.to_nat p)%nat with (Pos.to_nat p + Pos.to_nat p)%nat by lia.
    rewrite Nat.iter_add. reflexivity.
  - reflexivity.
Qed.

Lemma shr_1_spec m r s : 0 <= m ->
  shr_1 {| shr_m := m; shr_r := r; shr_s := s |} =
  {| shr_m := m / 2; shr_r := Z.odd m; shr_s := r || s |}.
Proof.
  intros Hm. destruct m as [|p|p]; try lia.
  - reflexivity.
  - destruct p as [p|p|]; simpl shr_1; f_equal.
    + rewrite Pos2Z.inj_xI. apply (Z.div_unique _ _ _ 1); lia.
    + rewrite Pos2Z.inj_xO. apply (Z.div_unique _ _ _ 0); lia.
Qed.

(** The state after [S k] single shifts of an exact record. *)
Lemma shr_iter_spec M k : 0 <= M ->
  Nat.iter (S k) shr_1 {| shr_m := M; shr_r := false; shr_s := false |} =
  {| shr_m := M / 2 ^ Z.of_nat (S k);
     shr_r := Z.odd (M / 2 ^ Z.of_nat k);
     shr_s := negb (M mod 2 ^ Z.of_nat k =? 0) |}.
Proof.
  intros HM. induction k as [|k IH].
  - change (Nat.iter 1 shr_1 ?x) with (shr_1 x). rewrite shr_1_spec by lia.
    change (Z.of_nat 1) with 1. change (Z.of_nat 0) with 0. rewrite Z.pow_1_r.
    rewrite Z.pow_0_r, Z.div_1_r, Z.mod_1_r. reflexivity.
  - change (Nat.iter (S (S k)) shr_1 ?x) with (shr_1 (Nat.iter (S k) shr_1 x)).
    rewrite IH. 
    assert (0 < 2 ^ Z.of_nat k) by (apply Z.pow_pos_nonneg; lia).
    assert (0 < 2 ^ Z.of_nat (S k)) by (apply Z.pow_pos_nonneg; lia).
    rewrite shr_1_spec by (apply Z.div_pos; lia).
    f_equal.
    + rewrite Z.div_div by lia. f_equal.
      rewrite (Nat2Z.inj_succ (S k)), Z.pow_succ_r by lia. lia.
    + assert (E : 2 ^ Z.of_nat (S k) = 2 ^ Z.of_nat k * 2).
      { rewrite Nat2Z.inj_succ, Z.pow_succ_r by lia. lia. }
      rewrite E. rewrite Z.rem_mul_r by lia.
      pose proof (Z.mod_pos_bound M (2 ^ Z.of_nat k) ltac:(lia)).
      rewrite Zodd_mod.
      pose proof (Z.mod_pos_bound (M / 2 ^ Z.of_nat k) 2 ltac:(lia)).
      destruct (Z.eqb_spec ((M / 2 ^ Z.of_nat k) mod 2) 1);
      destruct (Z.eqb_spec (M mod 2 ^ Z.of_nat k) 0);
      destruct (Z.eqb_spec (M mod 2 ^ Z.of_nat k + 2 ^ Z.of_nat k * ((M / 2 ^ Z.of_nat k) mod 2)) 0);
      simpl; try reflexivity; nia.
Qed.

(** Shifting out [k] zero bits leaves an exact record. *)
Lemma shr_iter_zeros M k : 0 <= M ->
  Nat.iter k shr_1 {| shr_m := M * 2 ^ Z.of_nat k; shr_r := false; shr_s := false |} =
  {| shr_m := M; shr_r := false; shr_s := false |}.
Proof.
  intros HM. destruct k as [|k].
  { cbn [Nat.iter nat_rect]. change (Z.of_nat 0) with 0.
    rewrite Z.pow_0_r, Z.mul_1_r. reflexivity. }
  pose proof (pow2_pos (Z.of_nat k) ltac:(lia)) as Pk.
  pose proof (pow2_pos (Z.of_nat (S k)) ltac:(lia)) as PSk.
  rewrite shr_iter_spec by nia.
  assert (E : 2 ^ Z.of_nat (S k) = 2 * 2 ^ Z.of_nat k).
  { rewrite Nat2Z.inj_succ, Z.pow_succ_r by lia. reflexivity. }
  f_equal.
  - apply Z.div_mul. lia.
  - rewrite E. replace (M * (2 * 2 ^ Z.of_nat k)) with (2 * M * 2 ^ Z.of_nat k) by lia.
    rewrite Z.div_mul by lia. apply Z.odd_even.
  - rewrite E. replace (M * (2 * 2 ^ Z.of_nat k)) with (M * 2 * 2 ^ Z.of_nat k) by lia.
    rewrite Z.mod_mul by lia. reflexivity.
Qed.

(** ** Round to nearest, ties to even *)

Lemma rne_0 M : rne M 0 = M.
Proof.
  unfold rne. rewrite Z.pow_0_r, Z.mod_1_r, Z.div_1_r. reflexivity.
Qed.

Lemma shr_rne M n : 0 <= M -> 0 < n ->
  let mrs := iter_pos shr_1 (Z.to_pos n)
               {| shr_m := M; shr_r := false; shr_s := false |} in
  round_nearest_even (shr_m mrs) (loc_of_shr_record mrs) = rne M n.
Proof.
  intros HM Hn mrs. subst mrs. rewrite iter_pos_nat.
  destruct (Pos.to_nat (Z.to_pos n)) as [|k] eqn:Ek; [lia|].
  assert (En : n = Z.of_nat (S k)) by lia.
  rewrite shr_iter_spec by lia. rewrite <- En.
  replace (Z.of_nat k) with (n - 1) by lia.
  unfold rne.
  assert (P1 : 0 < 2 ^ (n - 1)) by (apply Z.pow_pos_nonneg; lia).
  assert (E : 2 ^ n = 2 ^ (n - 1) * 2).
  { replace n with (Z.succ (n - 1)) at 1 by lia. rewrite Z.pow_succ_r by lia. lia. }
  rewrite E at 2 3. rewrite Z.rem_mul_r by lia. rewrite <- E.
  pose proof (Z.mod_pos_bound M (2 ^ (n - 1)) ltac:(lia)) as Hlow.
  pose proof (Z.mod_pos_bound (M / 2 ^ (n - 1)) 2 ltac:(lia)) as Hbit.
  rewrite Zodd_mod.
  set (low := M mod 2 ^ (n - 1)) in *. set (bit := (M / 2 ^ (n - 1)) mod 2) in *.
  simpl shr_m. unfold loc_of_shr_record, round_nearest_even.
  destruct (Z.eqb_spec bit 1) as [Hb|Hb]; destruct (Z.eqb_spec low 0) as [Hl|Hl]; simpl negb; cbv iota.
  - replace (2 * (low + 2 ^ (n - 1) * bit) ?= 2 ^ n) with Eq; [reflexivity|].
    symmetry; apply Z.compare_eq_iff; nia.
  - replace (2 * (low + 2 ^ (n - 1) * bit) ?= 2 ^ n) with Gt; [reflexivity|].
    symmetry; apply Z.compare_gt_iff; nia.
  - replace (2 * (low + 2 ^ (n - 1) * bit) ?= 2 ^ n) with Lt; [reflexivity|].
    symmetry; apply Z.compare_lt_iff; nia.
  - replace (2 * (low + 2 ^ (n - 1) * bit) ?= 2 ^ n) with Lt; [reflexivity|].
    symmetry; apply Z.compare_lt_iff; nia.
Qed.

Lemma rne_bounds M n : 0 <= M -> 0 <= n -> M / 2 ^ n <= rne M n <= M / 2 ^ n + 1.
Proof.
  intros. unfold rne. cbv zeta.
  destruct (Z.compare _ _); [destruct (Z.even _)| |]; lia.
Qed.

Lemma rne_exact M n : 0 <= n -> M mod 2 ^ n = 0 -> rne M n = M / 2 ^ n.
Proof.
  intros Hn H. unfold rne. rewrite H.
  assert (0 < 2 ^ n) by (apply Z.pow_pos_nonneg; lia).
  destruct (Z.compare_spec (2 * 0) (2 ^ n)); lia.
Qed.

Lemma rne_mono M1 M2 n : 0 <= n -> 0 <= M1 <= M2 -> rne M1 n <= rne M2 n.
Proof.
  intros Hn HM. pose proof (pow2_pos n Hn) as Pn.
  assert (Hq : M1 / 2 ^ n <= M2 / 2 ^ n) by (apply Z.div_le_mono; lia).
  pose proof (rne_bounds M1 n ltac:(lia) Hn) as [L1 U1].
  pose proof (rne_bounds M2 n ltac:(lia) Hn) as [L2 U2].
  destruct (Z.eq_dec (M1 / 2 ^ n) (M2 / 2 ^ n)) as [Heq|Hne]; [|lia].
  clear L1 U1 L2 U2.
  assert (Hh : M1 mod 2 ^ n <= M2 mod 2 ^ n).
  { rewrite !Z.mod_eq by lia. rewrite Heq. lia. }
  unfold rne. rewrite Heq.
  destruct (Z.compare_spec (2 * (M1 mod 2 ^ n)) (2 ^ n));
    destruct (Z.compare_spec (2 * (M2 mod 2 ^ n)) (2 ^ n));
    destruct (Z.even (M2 / 2 ^ n)); lia.
Qed.

(** Rounding never crosses a point of the grid it rounds to. *)
Lemma rne_grid_le M P n :
  0 <= n -> 0 <= M <= P -> P mod 2 ^ n = 0 -> rne M n * 2 ^ n <= P.
Proof.
  intros Hn HM HP. pose proof (pow2_pos n Hn) as Pn.
  pose proof (rne_mono M P n Hn HM) as Hm.
  rewrite (rne_exact P n Hn HP) in Hm.
  assert (P = P / 2 ^ n * 2 ^ n).
  { rewrite (Z.div_mod P (2 ^ n)) at 1 by lia. lia. }
  nia.
Qed.

Lemma rne_grid_ge M P n :
  0 <= n -> 0 <= P <= M -> P mod 2 ^ n = 0 -> P <= rne M n * 2 ^ n.
Proof.
  intros Hn HM HP. pose proof (pow2_pos n Hn) as Pn.
  pose proof (rne_mono P M n Hn HM) as Hm.
  rewrite (rne_exact P n Hn HP) in Hm.
  assert (P = P / 2 ^ n * 2 ^ n).
  { rewrite (Z.div_mod P (2 ^ n)) at 1 by lia. lia. }
  nia.
Qed.

(** A value within half a grid step above a grid point rounds down to it;
    a value more than half a step above rounds past it. *)
Lemma rne_near_le M G k :
  0 < k -> 0 <= G -> G mod 2 ^ k = 0 -> 0 <= M < G + 2 ^ (k - 1) ->
  rne M k * 2 ^ k <= G.
Proof.
  intros Hk HG Hmod HM.
  destruct (Z_le_gt_dec M G) as [Hle|Hgt]; [apply rne_grid_le; lia|].
  pose proof (pow2_pos k ltac:(lia)) as Pk.
  pose proof (pow2_pos (k - 1) ltac:(lia)) as Pk1.
  assert (E : 2 ^ k = 2 * 2 ^ (k - 1)).
  { replace k with (Z.succ (k - 1)) at 1 by lia. rewrite Z.pow_succ_r by lia. reflexivity. }
  assert (HGq : G = G / 2 ^ k * 2 ^ k).
  { rewrite (Z.div_mod G (2 ^ k)) at 1 by lia. lia. }
  assert (Hq : M / 2 ^ k = G / 2 ^ k).
  { symmetry. apply (Z.div_unique M (2 ^ k) (G / 2 ^ k) (M - G)); lia. }
  assert (Hr : M mod 2 ^ k = M - G).
  { rewrite Z.mod_eq by lia. rewrite Hq. lia. }
  unfold rne. rewrite Hr, Hq.
  destruct (Z.compare_spec (2 * (M - G)) (2 ^ k)); lia.
Qed.

Lemma rne_near_gt M G k :
  0 < k -> 0 <= G -> G mod 2 ^ k = 0 -> G + 2 ^ (k - 1) < M ->
  G < rne M k * 2 ^ k.
Proof.
  intros Hk HG Hmod HM.
  pose proof (pow2_pos k ltac:(lia)) as Pk.
  pose proof (pow2_pos (k - 1) ltac:(lia)) as Pk1.
  assert (E : 2 ^ k = 2 * 2 ^ (k - 1)).
  { replace k with (Z.succ (k - 1)) at 1 by lia. rewrite Z.pow_succ_r by lia. reflexivity. }
  destruct (Z_le_gt_dec (G + 2 ^ k) M) as [Hle|Hgt].
  - assert (G + 2 ^ k <= rne M k * 2 ^ k); [|lia].
    apply rne_grid_ge; try lia.
    rewrite <- Zplus_mod_idemp_l, Hmod. simpl. apply Z.mod_same. lia.
  - assert (HGq : G = G / 2 ^ k * 2 ^ k).
    { rewrite (Z.div_mod G (2 ^ k)) at 1 by lia. lia. }
    assert (Hq : M / 2 ^ k = G / 2 ^ k).
    { symmetry. apply (Z.div_unique M (2 ^ k) (G / 2 ^ k) (M - G)); lia. }
    assert (Hr : M mod 2 ^ k = M - G).
    { rewrite Z.mod_eq by lia. rewrite Hq. lia. }
    unfold rne. rewrite Hr, Hq.
    destruct (Z.compare_spec (2 * (M - G)) (2 ^ k)); lia.
Qed.

(** ** The rounded value *)

Lemma shift_amt_nonneg e M : 0 <= shift_amt e M.
Proof. unfold shift_amt; lia. Qed.

Lemma rnd_val_nonneg e M : 0 <= M -> 0 <= rnd_val e M.
Proof.
  intros HM. unfold rnd_val.
  pose proof (shift_amt_nonneg e M) as Hk.
  pose proof (pow2_pos _ Hk).
  pose proof (rne_bounds M _ HM Hk) as [L _].
  assert (0 <= M / 2 ^ shift_amt e M) by (apply Z.div_pos; lia).
  nia.
Qed.

Lemma rnd_val_mono e M1 M2 : 0 < M1 <= M2 -> rnd_val e M1 <= rnd_val e M2.
Proof.
  intros HM. unfold rnd_val.
  pose proof (Zdigits2_mono M1 M2 HM) as Hd.
  pose proof (Zdigits2_bounds M1 ltac:(lia)) as [_ B1].
  pose proof (Zdigits2_bounds M2 ltac:(lia)) as [B2 _].
  pose proof (Zdigits2_pos M1 ltac:(lia)) as P1.
  pose proof (shift_amt_nonneg e M1) as K1.
  pose proof (shift_amt_nonneg e M2) as K2.
  assert (K12 : shift_amt e M1 <= shift_amt e M2).
  { unfold shift_amt. rewrite !fexp_eq. lia. }
  destruct (Z.eq_dec (shift_amt e M1) (shift_amt e M2)) as [Heq|Hne].
  - rewrite Heq. pose proof (pow2_pos _ K2).
    pose proof (rne_mono M1 M2 _ K2 ltac:(lia)). nia.
  - (* different binades: the power of two between them is on both grids *)
    assert (Hk2 : shift_amt e M2 = Zdigits2 M2 - 53 /\ Zdigits2 M1 < Zdigits2 M2).
    { unfold shift_amt in *. rewrite !fexp_eq in *. lia. }
    destruct Hk2 as [Hk2 Hlt].
    set (P := 2 ^ (Zdigits2 M2 - 1)).
    assert (HP1 : M1 <= P).
    { assert (2 ^ Zdigits2 M1 <= P) by (apply Z.pow_le_mono_r; lia). lia. }
    apply Z.le_trans with P.
    + apply rne_grid_le; try lia. apply pow2_mod_0. lia.
    + apply rne_grid_ge; try lia. apply pow2_mod_0. lia.
Qed.

(** [binary_round_aux] on an exact positive input returns the canonical
    representation of [rnd_val], or overflows. *)
Lemma bra_spec s M e : 0 < M ->
  let V := rnd_val e M in
  (V = 0 /\ bra s M e loc_Exact = S754_zero s) \/
  (exists m e2,
      e <= e2 /\ Zpos m * 2 ^ (e2 - e) = V /\
      e2 = Z.max e (fexp prec emax (Zdigits2 V + e)) /\
      bra s M e loc_Exact =
        if e2 <=? emax - prec then S754_finite s m e2 else S754_infinity s).
Proof.
  intros HM V. subst V. unfold rnd_val, shift_amt.
  pose proof (Zdigits2_bounds M HM) as [Dlo Dhi].
  pose proof (Zdigits2_pos M HM) as Dpos.
  set (d := Zdigits2 M) in *.
  unfold bra, binary_round_aux, shr_fexp. fold d.
  set (E := fexp prec emax (d + e)).
  assert (HE : E = Z.max (d + e - 53) (-1074)) by reflexivity.
  destruct (Z_le_gt_dec (E - e) 0) as [Hn|Hn].
  - (* no shift *)
    right.
    replace (Z.max 0 (E - e)) with 0 by lia. rewrite rne_0, Z.pow_0_r, Z.mul_1_r.
    assert (Hshr : forall mrs, shr mrs e (E - e) = (mrs, e)).
    { intros mrs. unfold shr. destruct (E - e); try reflexivity; lia. }
    rewrite Hshr. simpl shr_record_of_loc. cbn [shr_m loc_of_shr_record round_nearest_even].
    fold d. fold E. rewrite Hshr. cbn [shr_m].
    destruct M as [|p|p]; try lia.
    exists p, e. fold d. fold E. replace (e - e) with 0 by lia.
    rewrite Z.pow_0_r. repeat split; try lia.
  - (* shift by E - e > 0 *)
    replace (Z.max 0 (E - e)) with (E - e) by lia.
    set (n := E - e) in *.
    assert (Hshr : forall mrs, shr mrs e n = (iter_pos shr_1 (Z.to_pos n) mrs, E)).
    { intros mrs. unfold shr. destruct n eqn:En; try lia. simpl Z.to_pos.
      f_equal. lia. }
    rewrite Hshr. simpl shr_record_of_loc.
    rewrite shr_rne by lia.
    pose proof (rne_bounds M n ltac:(lia) ltac:(lia)) as [Rlo Rhi].
    pose proof (pow2_pos n ltac:(lia)) as Pn.
    assert (Hq0 : 0 <= M / 2 ^ n) by (apply Z.div_pos; lia).
    assert (Hq53 : M / 2 ^ n < 2 ^ 53).
    { apply Z.div_lt_upper_bound; [lia|].
      rewrite <- Z.pow_add_r by lia.
      eapply Z.lt_le_trans; [exact Dhi|]. apply Z.pow_le_mono_r; lia. }
    set (m1 := rne M n) in *.
    destruct (Z.eq_dec m1 0) as [Hz|Hnz].
    + left. rewrite Hz. split; [lia|].
      simpl Zdigits2. unfold shr.
      destruct (fexp prec emax (0 + E) - E) eqn:E2; try reflexivity.
      rewrite fexp_eq in E2. lia.
    + right. assert (Hm1 : 0 < m1) by lia.
      pose proof (Zdigits2_bounds m1 Hm1) as [D1lo D1hi].
      pose proof (Zdigits2_pos m1 Hm1) as D1pos.
      assert (DV : Zdigits2 (m1 * 2 ^ n) + e = Zdigits2 m1 + E).
      { rewrite Zdigits2_mul_pow2 by lia. lia. }
      rewrite DV.
      set (d1 := Zdigits2 m1) in *.
      set (E2 := fexp prec emax (d1 + E)).
      assert (HE2 : E2 = Z.max (d1 + E - 53) (-1074)) by reflexivity.
      assert (Hd1 : d1 <= 54).
      { destruct (Z_le_gt_dec d1 54); auto.
        assert (2 ^ 54 <= 2 ^ (d1 - 1)) by (apply Z.pow_le_mono_r; lia). lia. }
      destruct (Z_le_gt_dec (E2 - E) 0) as [Hn2|Hn2].
      * (* the rounded mantissa fits *)
        assert (Hshr2 : forall mrs, shr mrs E (E2 - E) = (mrs, E)).
        { intros mrs. unfold shr. destruct (E2 - E); try reflexivity; lia. }
        rewrite Hshr2. cbn [shr_m].
        destruct m1 as [|p|p] eqn:Em1; try lia.
        exists p, E.
        assert (E2 = E).
        { destruct (Z.max_spec (d + e - 53) (-1074)) as [[? ?]|[? ?]]; [lia|].
          (* normal range: the quotient has 53 digits *)
          assert (2 ^ 52 <= M / 2 ^ n).
          { apply Z.div_le_lower_bound; [lia|].
            rewrite <- Z.pow_add_r by lia.
            eapply Z.le_trans; [|exact Dlo]. apply Z.pow_le_mono_r; lia. }
          assert (52 < d1).
          { apply (Z.pow_lt_mono_r_iff 2); try lia. }
          lia. }
        repeat split; try lia.
      * (* carry into a 54th digit *)
        assert (d1 = 54) by lia.
        assert (m1 = 2 ^ 53).
        { assert (2 ^ 53 <= m1) by (replace 53 with (d1 - 1) by lia; exact D1lo). lia. }
        assert (E2 - E = 1) by lia.
        replace (E2 - E) with 1 by lia. unfold shr. simpl iter_pos.
        rewrite H0. simpl shr_1. cbn [shr_m].
        exists (Z.to_pos (2 ^ 52)), (E + 1).
        repeat split; try lia.
        rewrite Z2Pos.id by reflexivity.
        replace (E + 1 - e) with (Z.succ n) by lia.
        rewrite Z.pow_succ_r by lia.
        change (2 ^ 53) with (2 ^ 52 * 2). lia.
Qed.

(** ** Comparing an integer with a rounded value *)

Lemma scaled_le_mono V1 V2 e c :
  V1 <= V2 -> scaled_le V2 e c = true -> scaled_le V1 e c = true.
Proof.
  unfold scaled_le. intros HV. destruct (0 <=? e) eqn:He.
  - pose proof (pow2_pos e ltac:(lia)) as Pe. intros H%Z.leb_le. apply Z.leb_le. nia.
  - intros H%Z.leb_le. apply Z.leb_le. lia.
Qed.

Lemma int_ge_finite c m e2 e : e <= e2 ->
  int_ge c (S754_finite false m e2) = scaled_le (Zpos m * 2 ^ (e2 - e)) e c.
Proof.
  intros He. unfold int_ge, scaled_le.
  pose proof (pow2_pos (e2 - e) ltac:(lia)) as Pd.
  destruct (0 <=? e2) eqn:H2; destruct (0 <=? e) eqn:H1; try lia.
  - assert (E : Z.pos m * 2 ^ (e2 - e) * 2 ^ e = Z.pos m * 2 ^ e2).
    { rewrite <- Z.mul_assoc, <- Z.pow_add_r by lia.
      replace (e2 - e + e) with e2 by lia. reflexivity. }
    rewrite E. reflexivity.
  - pose proof (pow2_pos (- e) ltac:(lia)) as Pe.
    pose proof (pow2_pos e2 ltac:(lia)) as Pe2.
    assert (E : 2 ^ (e2 - e) = 2 ^ e2 * 2 ^ (- e)).
    { rewrite <- Z.pow_add_r by lia. replace (e2 + - e) with (e2 - e) by lia. reflexivity. }
    rewrite E. apply Bool.eq_true_iff_eq. rewrite !Z.leb_le. nia.
  - pose proof (pow2_pos (- e2) ltac:(lia)) as Pe2.
    assert (E : 2 ^ (- e) = 2 ^ (- e2) * 2 ^ (e2 - e)).
    { rewrite <- Z.pow_add_r by lia. replace (- e2 + (e2 - e)) with (- e) by lia. reflexivity. }
    rewrite E. apply Bool.eq_true_iff_eq. rewrite !Z.leb_le. nia.
Qed.

Lemma fits_mono e V1 V2 : 0 <= V1 <= V2 -> fits e V2 -> fits e V1.
Proof.
  intros HV [H0|H]; [left; lia|].
  destruct (Z.eq_dec V1 0); [left; auto|right].
  pose proof (Zdigits2_mono V1 V2 ltac:(lia)).
  rewrite fexp_eq in *. lia.
Qed.

Lemma int_ge_bra c M e : 0 < M ->
  int_ge c (bra false M e loc_Exact) = true <->
  fits e (rnd_val e M) /\ scaled_le (rnd_val e M) e c = true.
Proof.
  intros HM. destruct (bra_spec false M e HM) as [[HV Hb]|(m & e2 & He & Hm & He2 & Hb)].
  - rewrite Hb, HV. unfold fits, scaled_le. simpl int_ge.
    destruct (0 <=? e) eqn:H1.
    + simpl. tauto.
    + pose proof (pow2_pos (- e) ltac:(lia)).
      split.
      * intros H0%Z.leb_le. split; [auto|]. apply Z.leb_le. nia.
      * intros [_ H0%Z.leb_le]. apply Z.leb_le. nia.
  - rewrite Hb. pose proof (pow2_pos (e2 - e) ltac:(lia)).
    assert (rnd_val e M <> 0) by lia.
    unfold fits. rewrite <- He2.
    destruct (e2 <=? emax - prec) eqn:Hov.
    + rewrite (int_ge_finite c m e2 e He), Hm. apply Z.leb_le in Hov. tauto.
    + simpl int_ge. apply Z.leb_gt in Hov. split; [discriminate|].
      intros [[?|?] _]; lia.
Qed.

(** Rounding is monotone: a larger exact value gives a larger target. *)
Lemma bra_mono c e M1 M2 : 0 < M1 <= M2 ->
  int_ge c (bra false M2 e loc_Exact) = true ->
  int_ge c (bra false M1 e loc_Exact) = true.
Proof.
  intros HM. rewrite !int_ge_bra by lia.
  pose proof (rnd_val_mono e M1 M2 HM) as HV.
  pose proof (rnd_val_nonneg e M1 ltac:(lia)).
  intros [Hf Hs]. split.
  - eapply fits_mono; eauto.
  - eapply scaled_le_mono; eauto.
Qed.

(** Rounding sees the value only: trailing zero bits of the mantissa may be
    moved into the exponent. *)
Lemma bra_scale s M e k :
  0 < M -> 0 <= k -> e <= fexp prec emax (Zdigits2 M + e) ->
  bra s (M * 2 ^ k) (e - k) loc_Exact = bra s M e loc_Exact.
Proof.
  intros HM Hk Hn. unfold bra, binary_round_aux.
  assert (Hfst : shr_fexp prec emax (M * 2 ^ k) (e - k) loc_Exact
                 = shr_fexp prec emax M e loc_Exact).
  { unfold shr_fexp. rewrite Zdigits2_mul_pow2 by lia.
    replace (Zdigits2 M + k + (e - k)) with (Zdigits2 M + e) by lia.
    set (E := fexp prec emax (Zdigits2 M + e)) in *.
    simpl shr_record_of_loc. unfold shr.
    destruct (E - (e - k)) as [|p|p] eqn:E1; try lia.
    - assert (k = 0) by lia. subst k. rewrite Z.pow_0_r, Z.mul_1_r.
      replace (E - e) with 0 by lia. f_equal. lia.
    - rewrite iter_pos_nat.
      destruct (E - e) as [|q|q] eqn:E2; try lia.
      + remember (Z.to_nat k) as kn eqn:Ekn.
        assert (Hp : Pos.to_nat p = kn) by lia.
        assert (Hk' : k = Z.of_nat kn) by lia.
        rewrite Hp, Hk'. rewrite shr_iter_zeros by lia. f_equal. lia.
      + rewrite iter_pos_nat.
        remember (Z.to_nat k) as kn eqn:Ekn.
        assert (Hp : Pos.to_nat p = (Pos.to_nat q + kn)%nat) by lia.
        assert (Hk' : k = Z.of_nat kn) by lia.
        rewrite Hp, Nat.iter_add, Hk'.
        rewrite shr_iter_zeros by lia. f_equal. lia. }
  rewrite Hfst. reflexivity.
Qed.

(** A product with a normal fraction of exponent at least -59, brought to
    the common exponent [eA - 59]. *)
Lemma SFmul_finite mA eA mY eY :
  Zdigits2 (Zpos mY) = 53 -> -59 <= eY ->
  SFmul prec emax (S754_finite false mA eA) (S754_finite false mY eY) =
  bra false (Zpos mA * (Zpos mY * 2 ^ (eY + 59))) (eA - 59) loc_Exact.
Proof.
  intros Hd He. cbn [SFmul xorb]. rewrite Pos2Z.inj_mul.
  rewrite Z.mul_assoc. replace (eA - 59) with (eA + eY - (eY + 59)) by lia.
  fold bra. symmetry. apply bra_scale; try lia.
  assert (53 <= Zdigits2 (Z.pos mA * Z.pos mY)).
  { rewrite <- Hd. apply Zdigits2_mono. nia. }
  rewrite fexp_eq. lia.
Qed.

(** ** The fractions [x / 100] *)

Lemma percents_in x : 1 <= x <= 100 -> In x percents.
Proof.
  intros H. unfold percents. apply in_map_iff. exists (Z.to_nat x).
  split; [lia|]. apply in_seq. lia.
Qed.

Lemma frac_table_ok :
  forallb (fun x1 => forallb (frac_pair_ok x1) percents) percents = true.
Proof. vm_compute. reflexivity. Qed.

Lemma frac_scaled_mono x1 x2 : 1 <= x1 -> x1 <= x2 -> x2 <= 100 ->
  exists a b, frac_scaled x1 = Some a /\ frac_scaled x2 = Some b /\
              0 < a <= b /\ b <= 2 ^ 59.
Proof.
  intros H1 H12 H2. pose proof frac_table_ok as T.
  rewrite forallb_forall in T. specialize (T x1 (percents_in x1 ltac:(lia))).
  rewrite forallb_forall in T. specialize (T x2 (percents_in x2 ltac:(lia))).
  unfold frac_pair_ok in T.
  destruct (frac_scaled x1) as [a|]; [|discriminate].
  destruct (frac_scaled x2) as [b|]; [|discriminate].
  exists a, b. repeat split; try reflexivity; lia.
Qed.

Lemma frac_scaled_inv x a : frac_scaled x = Some a ->
  exists m e, int_truediv x 100 = inr (S754_finite false m e) /\
              Zdigits2 (Zpos m) = 53 /\ -59 <= e /\ a = Zpos m * 2 ^ (e + 59).
Proof.
  unfold frac_scaled. destruct (int_truediv x 100) as [?|[ | | |[|] m e]]; try discriminate.
  destruct (Z.eqb_spec (Zdigits2 (Z.pos m)) 53) as [Hd|]; [|discriminate].
  destruct (Z.leb_spec (-59) e) as [He|]; [|discriminate].
  cbn [andb]. intros [= <-]. exists m, e. auto.
Qed.

Lemma frac_scaled_50 : frac_scaled 50 = Some (2 ^ 58).
Proof. vm_compute. reflexivity. Qed.

Lemma frac_scaled_90 : frac_scaled 90 = Some 518814677073081152.
Proof. vm_compute. reflexivity. Qed.

(** ** Conversion of a non-negative integer *)

Lemma Pos_iter_xO p k : Zpos (Pos.iter xO p k) = Zpos p * 2 ^ Zpos k.
Proof.
  induction k as [|k IH] using Pos.peano_ind.
  - simpl. lia.
  - rewrite Pos.iter_succ, Pos2Z.inj_xO, IH, Pos2Z.inj_succ, Z.pow_succ_r by lia. lia.
Qed.

Lemma shl_align_spec p e e' :
  Zpos (fst (shl_align p e e')) = Zpos p * 2 ^ (e - snd (shl_align p e e')) /\
  snd (shl_align p e e') = Z.min e e'.
Proof.
  unfold shl_align. destruct (e' - e) as [|d|d] eqn:Ed; cbn [fst snd].
  - replace (e - e) with 0 by lia. rewrite Z.pow_0_r. lia.
  - replace (e - e) with 0 by lia. rewrite Z.pow_0_r. lia.
  - rewrite Pos_iter_xO. replace (e - e') with (Z.pos d) by lia. lia.
Qed.

Lemma of_int_nonneg T A : 0 <= T -> of_int T = inr A ->
  A = S754_zero false \/ exists m e, A = S754_finite false m e.
Proof.
  intros HT. unfold of_int, binary_normalize.
  destruct T as [|p|p]; try lia.
  - intros [= <-]. auto.
  - unfold binary_round.
    destruct (shl_align p 0 (fexp prec emax (Z.pos (digits2_pos p) + 0))) as [mz ez].
    fold bra.
    destruct (bra_spec false (Z.pos mz) ez ltac:(lia)) as [[_ ->]|(m & e2 & _ & _ & _ & ->)].
    + intros [= <-]. auto.
    + destruct (e2 <=? emax - prec); [|discriminate].
      intros [= <-]. right. eauto.
Qed.

(** Below [2 ^ 53] the conversion is exact. *)
Lemma of_int_exact T : 0 < T < 2 ^ 53 ->
  exists m e, of_int T = inr (S754_finite false m e) /\
              -52 <= e <= 0 /\ Zpos m = T * 2 ^ (- e) /\ Zdigits2 (Zpos m) = 53.
Proof.
  intros HT. unfold of_int, binary_normalize.
  destruct T as [|p|p]; try lia.
  unfold binary_round.
  pose proof (Zdigits2_bounds (Z.pos p) ltac:(lia)) as [Dlo Dhi].
  pose proof (Zdigits2_pos (Z.pos p) ltac:(lia)) as Dpos.
  change (Z.pos (digits2_pos p)) with (Zdigits2 (Z.pos p)).
  set (d := Zdigits2 (Z.pos p)) in *.
  assert (Hd : d <= 53).
  { destruct (Z_le_gt_dec d 53); auto.
    assert (2 ^ 53 <= 2 ^ (d - 1)) by (apply Z.pow_le_mono_r; lia). lia. }
  pose proof (shl_align_spec p 0 (fexp prec emax (d + 0))) as [Hm He].
  destruct (shl_align p 0 (fexp prec emax (d + 0))) as [mz ez].
  cbn [fst snd] in Hm, He. rewrite fexp_eq in He.
  assert (Hez : ez = d - 53) by lia.
  assert (Hdz : Zdigits2 (Z.pos mz) = 53).
  { rewrite Hm. rewrite Zdigits2_mul_pow2 by lia. fold d. lia. }
  fold bra.
  destruct (bra_spec false (Z.pos mz) ez ltac:(lia)) as [[HV _]|(m & e2 & He2 & HmV & He2' & ->)].
  - exfalso. revert HV. unfold rnd_val, shift_amt. rewrite Hdz, fexp_eq.
    replace (Z.max 0 (Z.max (53 + ez - 53) (-1074) - ez)) with 0 by lia.
    rewrite rne_0. lia.
  - revert HmV He2'. unfold rnd_val, shift_amt. rewrite Hdz, fexp_eq.
    replace (Z.max 0 (Z.max (53 + ez - 53) (-1074) - ez)) with 0 by lia.
    rewrite rne_0, Z.pow_0_r, Z.mul_1_r, Hdz, fexp_eq. intros HmV He2'.
    assert (Ee2 : e2 = ez) by lia. rewrite Ee2 in *.
    rewrite Z.sub_diag, Z.pow_0_r in HmV.
    assert (Em : m = mz) by lia. rewrite Em.
    replace (ez <=? emax - prec) with true by (symmetry; apply Z.leb_le; unfold emax, prec; lia).
    exists mz, ez. repeat split; try lia.
    rewrite Hm. replace (0 - ez) with (- ez) by lia. reflexivity.
Qed.

(** No [OverflowError] for a total below [2 ^ 1023]. *)
Lemma of_int_total T : 0 <= T <= 2 ^ 1023 -> exists A, of_int T = inr A.
Proof.
  intros HT. destruct (Z_lt_le_dec T (2 ^ 53)) as [Hs|Hb].
  - destruct (Z.eq_dec T 0) as [->|H0]; [eexists; reflexivity|].
    destruct (of_int_exact T ltac:(lia)) as (m & e & H & _). eauto.
  - unfold of_int, binary_normalize. destruct T as [|p|p]; try lia.
    unfold binary_round.
    pose proof (Zdigits2_bounds (Z.pos p) ltac:(lia)) as [Dlo Dhi].
    change (Z.pos (digits2_pos p)) with (Zdigits2 (Z.pos p)).
    set (d := Zdigits2 (Z.pos p)) in *.
    assert (Hd : 54 <= d).
    { destruct (Z_le_gt_dec 54 d); auto.
      assert (2 ^ d <= 2 ^ 53) by (apply Z.pow_le_mono_r; lia). lia. }
    pose proof (Zdigits2_le_of_lt (Z.pos p) 1023 ltac:(lia) ltac:(lia) ltac:(lia)) as Hd'.
    fold d in Hd'.
    pose proof (shl_align_spec p 0 (fexp prec emax (d + 0))) as [Hm He].
    destruct (shl_align p 0 (fexp prec emax (d + 0))) as [mz ez].
    cbn [fst snd] in Hm, He. rewrite fexp_eq in He.
    assert (Hez : ez = 0) by lia. rewrite Hez in *.
    change (2 ^ (0 - 0)) with 1 in Hm. rewrite Z.mul_1_r in Hm. injection Hm as ->.
    fold bra.
    destruct (bra_spec false (Z.pos p) 0 ltac:(lia)) as [[_ ->]|(m & e2 & _ & _ & He2 & ->)].
    + eexists; reflexivity.
    + assert (HV : rnd_val 0 (Z.pos p) <= 2 ^ 1023).
      { unfold rnd_val. apply rne_grid_le; try lia.
        - apply shift_amt_nonneg.
        - apply pow2_mod_0. unfold shift_amt. fold d. rewrite fexp_eq. lia. }
      assert (Hov : e2 <= emax - prec).
      { pose proof (rnd_val_nonneg 0 (Z.pos p) ltac:(lia)).
        destruct (Z.eq_dec (rnd_val 0 (Z.pos p)) 0) as [E0|E0].
        - rewrite E0, fexp_eq in He2. change (Zdigits2 0) with 0 in He2.
          unfold emax, prec. lia.
        - pose proof (Zdigits2_le_of_lt (rnd_val 0 (Z.pos p)) 1023
                        ltac:(lia) ltac:(lia) HV).
          rewrite fexp_eq in He2. unfold emax, prec. lia. }
      apply Z.leb_le in Hov. rewrite Hov. eexists; reflexivity.
Qed.

(** ** The target [total * (x / 100)] *)

Lemma target_of_finite T x mA eA a :
  of_int T = inr (S754_finite false mA eA) -> frac_scaled x = Some a ->
  target_of T x = inr (bra false (Zpos mA * a) (eA - 59) loc_Exact).
Proof.
  intros HA Ha. destruct (frac_scaled_inv x a Ha) as (m & e & Hdiv & Hd & He & ->).
  unfold target_of, int_mul. rewrite Hdiv. cbn [bind]. rewrite HA. cbn [bind].
  unfold ret. f_equal. apply SFmul_finite; assumption.
Qed.

Lemma target_of_zero T x a :
  of_int T = inr (S754_zero false) -> frac_scaled x = Some a ->
  target_of T x = inr (S754_zero false).
Proof.
  intros HA Ha. destruct (frac_scaled_inv x a Ha) as (m & e & Hdiv & Hd & He & ->).
  unfold target_of, int_mul. rewrite Hdiv. cbn [bind]. rewrite HA. reflexivity.
Qed.

(** The targets are ordered like the percentages. *)
Lemma target_of_mono T x1 x2 A :
  0 <= T -> 1 <= x1 -> x1 <= x2 -> x2 <= 100 -> of_int T = inr A ->
  exists t1 t2, target_of T x1 = inr t1 /\ target_of T x2 = inr t2 /\
                target_le t1 t2.
Proof.
  intros HT H1 H12 H2 HA.
  destruct (frac_scaled_mono x1 x2 H1 H12 H2) as (a & b & Ha & Hb & Hab & Hb59).
  destruct (of_int_nonneg T A HT HA) as [->|(mA & eA & ->)].
  - exists (S754_zero false), (S754_zero false).
    rewrite (target_of_zero T x1 a HA Ha), (target_of_zero T x2 b HA Hb).
    repeat split; auto. intros c Hc; exact Hc.
  - rewrite (target_of_finite T x1 mA eA a HA Ha), (target_of_finite T x2 mA eA b HA Hb).
    eexists _, _. repeat split; try reflexivity.
    intros c. apply bra_mono. nia.
Qed.

(** With an exactly converted total, no target for [x <= 100] exceeds it. *)
Lemma target_of_reached T x :
  0 <= T < 2 ^ 53 -> 1 <= x <= 100 ->
  exists t, target_of T x = inr t /\ int_ge T t = true.
Proof.
  intros HT Hx.
  destruct (frac_scaled_mono x x ltac:(lia) ltac:(lia) ltac:(lia))
    as (a & a' & Ha & Ha' & Ha0 & Ha59).
  rewrite Ha in Ha'. injection Ha' as <-.
  destruct (Z.eq_dec T 0) as [->|HT0].
  - exists (S754_zero false). split; [|reflexivity].
    apply (target_of_zero 0 x a); [reflexivity|assumption].
  - destruct (of_int_exact T ltac:(lia)) as (mA & eA & HA & HeA & HmA & HdA).
    exists (bra false (Zpos mA * a) (eA - 59) loc_Exact).
    split; [apply target_of_finite; assumption|].
    pose proof (Zdigits2_bounds (Z.pos mA) ltac:(lia)) as [_ BA]. rewrite HdA in BA.
    set (M := Z.pos mA * a). set (e := eA - 59).
    set (P := Z.pos mA * 2 ^ 59).
    assert (HM : 0 < M) by (unfold M; nia).
    assert (HMP : M <= P) by (unfold M, P; nia).
    assert (HP112 : P < 2 ^ 112).
    { unfold P. change (2 ^ 112) with (2 ^ 53 * 2 ^ 59). nia. }
    assert (Hdig : forall V, 0 < V <= P -> Zdigits2 V <= 112).
    { intros V HV. pose proof (Zdigits2_bounds V ltac:(lia)) as [Vlo _].
      destruct (Z_le_gt_dec (Zdigits2 V) 112); auto.
      assert (2 ^ 112 <= 2 ^ (Zdigits2 V - 1)) by (apply Z.pow_le_mono_r; lia). lia. }
    pose proof (Hdig M ltac:(lia)) as HdM.
    pose proof (Zdigits2_pos M HM) as HdM0.
    assert (Hk : 0 <= shift_amt e M <= 59).
    { unfold shift_amt, e. rewrite fexp_eq. lia. }
    assert (HV : rnd_val e M <= P).
    { unfold rnd_val. apply rne_grid_le; try lia.
      unfold P. replace 59 with ((59 - shift_amt e M) + shift_amt e M) by lia.
      rewrite Z.pow_add_r by lia. rewrite Z.mul_assoc. apply Z.mod_mul.
      pose proof (pow2_pos (shift_amt e M)); lia. }
    pose proof (rnd_val_nonneg e M ltac:(lia)) as HV0.
    apply int_ge_bra; [lia|]. split.
    + destruct (Z.eq_dec (rnd_val e M) 0); [left; auto|right].
      pose proof (Hdig (rnd_val e M) ltac:(lia)).
      pose proof (Zdigits2_pos (rnd_val e M) ltac:(lia)).
      assert (Ee : e = eA - 59) by reflexivity.
      unfold emax, prec. rewrite fexp_eq. lia.
    + unfold scaled_le. replace (0 <=? e) with false by (symmetry; apply Z.leb_gt; unfold e; lia).
      apply Z.leb_le. eapply Z.le_trans; [exact HV|].
      unfold P, e. rewrite HmA. replace (- (eA - 59)) with (- eA + 59) by lia.
      rewrite Z.pow_add_r by lia. lia.
Qed.

(** Comparison of an integer with the rounded product, for a fraction in
    [[1/2, 1)] and an exactly converted total. *)
Lemma int_ge_product T c a mA eA :
  0 < T -> Zpos mA = T * 2 ^ (- eA) -> -52 <= eA <= 0 -> Zdigits2 (Zpos mA) = 53 ->
  2 ^ 58 <= a < 2 ^ 59 ->
  let M := Zpos mA * a in
  58 <= shift_amt (eA - 59) M <= 59 /\
  (int_ge c (bra false M (eA - 59) loc_Exact) = true <->
   rnd_val (eA - 59) M <= c * 2 ^ (59 - eA)).
Proof.
  intros HT HmA HeA HdA Ha M.
  pose proof (Zdigits2_bounds (Z.pos mA) ltac:(lia)) as [Alo Ahi]. rewrite HdA in Alo, Ahi.
  change (2 ^ (53 - 1)) with (2 ^ 52) in Alo.
  assert (HM : 2 ^ 110 <= M < 2 ^ 112).
  { unfold M. change (2 ^ 110) with (2 ^ 52 * 2 ^ 58).
    change (2 ^ 112) with (2 ^ 53 * 2 ^ 59). nia. }
  assert (Hd : 111 <= Zdigits2 M <= 112).
  { pose proof (Zdigits2_bounds M ltac:(lia)) as [Mlo Mhi]. split.
    - destruct (Z_le_gt_dec 111 (Zdigits2 M)); auto.
      assert (2 ^ Zdigits2 M <= 2 ^ 110) by (apply Z.pow_le_mono_r; lia). lia.
    - destruct (Z_le_gt_dec (Zdigits2 M) 112); auto.
      assert (2 ^ 112 <= 2 ^ (Zdigits2 M - 1)) by (apply Z.pow_le_mono_r; lia). lia. }
  assert (Hk : shift_amt (eA - 59) M = Zdigits2 M - 53).
  { unfold shift_amt. rewrite fexp_eq. lia. }
  split; [lia|].
  rewrite int_ge_bra by lia.
  assert (HV : rnd_val (eA - 59) M <= 2 ^ 112).
  { unfold rnd_val. apply rne_grid_le; try lia. apply pow2_mod_0. lia. }
  pose proof (rnd_val_nonneg (eA - 59) M ltac:(lia)) as HV0.
  assert (Hfits : fits (eA - 59) (rnd_val (eA - 59) M)).
  { destruct (Z.eq_dec (rnd_val (eA - 59) M) 0); [left; auto|right].
    pose proof (Zdigits2_le_of_lt (rnd_val (eA - 59) M) 112 ltac:(lia) ltac:(lia) HV).
    pose proof (Zdigits2_pos (rnd_val (eA - 59) M) ltac:(lia)).
    unfold emax, prec. rewrite fexp_eq. lia. }
  unfold scaled_le.
  replace (0 <=? eA - 59) with false by (symmetry; apply Z.leb_gt; lia).
  replace (- (eA - 59)) with (59 - eA) by lia.
  rewrite Z.leb_le. tauto.
Qed.

(** At 50 and 90, the values the script reports, the float comparison is
    the exact one: up to [2 ^ 53] for 50 (the product is exact) and up to
    [2 ^ 50] for 90 (the rounding error stays below one tenth). *)
Lemma target_50_exact T c : 0 <= T < 2 ^ 53 ->
  exists t, target_of T 50 = inr t /\ int_ge c t = reaches T 50 c.
Proof.
  intros HT. destruct (Z.eq_dec T 0) as [->|HT0].
  - exists (S754_zero false). split; [reflexivity|].
    unfold reaches. simpl int_ge. apply Bool.eq_true_iff_eq. rewrite !Z.leb_le. lia.
  - destruct (of_int_exact T ltac:(lia)) as (mA & eA & HA & HeA & HmA & HdA).
    exists (bra false (Zpos mA * 2 ^ 58) (eA - 59) loc_Exact).
    split; [apply target_of_finite; [assumption|apply frac_scaled_50]|].
    destruct (int_ge_product T c (2 ^ 58) mA eA ltac:(lia) HmA HeA HdA ltac:(lia))
      as [Hk Hiff].
    apply Bool.eq_true_iff_eq. rewrite Hiff. unfold reaches. rewrite Z.leb_le.
    pose proof (pow2_pos (- eA) ltac:(lia)) as Ps.
    assert (Hk58 : shift_amt (eA - 59) (Z.pos mA * 2 ^ 58) = 58).
    { unfold shift_amt. rewrite Zdigits2_mul_pow2, HdA, fexp_eq by lia. lia. }
    assert (HVM : rnd_val (eA - 59) (Z.pos mA * 2 ^ 58) = Z.pos mA * 2 ^ 58).
    { unfold rnd_val. rewrite Hk58. rewrite rne_exact by (try lia; apply Z.mod_mul; lia).
      rewrite Z.div_mul by lia. reflexivity. }
    rewrite HVM, HmA.
    replace (59 - eA) with (- eA + 1 + 58) by lia.
    rewrite !Z.pow_add_r by lia. change (2 ^ 1) with 2.
    pose proof (pow2_pos 58 ltac:(lia)) as P58.
    split; intros H.
    + assert (T * 2 ^ (- eA) <= c * (2 ^ (- eA) * 2)) by nia. nia.
    + assert (T * 2 ^ (- eA) <= c * (2 ^ (- eA) * 2)) by nia. nia.
Qed.

Lemma target_90_exact T c : 0 <= T < 2 ^ 50 ->
  exists t, target_of T 90 = inr t /\ int_ge c t = reaches T 90 c.
Proof.
  intros HT. destruct (Z.eq_dec T 0) as [->|HT0].
  - exists (S754_zero false). split; [reflexivity|].
    unfold reaches. simpl int_ge. apply Bool.eq_true_iff_eq. rewrite !Z.leb_le. lia.
  - destruct (of_int_exact T ltac:(lia)) as (mA & eA & HA & HeA & HmA & HdA).
    set (a := 518814677073081152).
    exists (bra false (Zpos mA * a) (eA - 59) loc_Exact).
    split; [apply target_of_finite; [assumption|apply frac_scaled_90]|].
    assert (Ha10 : 10 * a = 9 * 2 ^ 59 + 128) by reflexivity.
    assert (Ha : 2 ^ 58 <= a < 2 ^ 59) by (unfold a; split; [apply Z.leb_le|apply Z.ltb_lt]; reflexivity).
    destruct (int_ge_product T c a mA eA ltac:(lia) HmA HeA HdA Ha) as [Hk Hiff].
    apply Bool.eq_true_iff_eq. rewrite Hiff. unfold reaches. rewrite Z.leb_le.
    pose proof (Zdigits2_bounds (Z.pos mA) ltac:(lia)) as [Alo Ahi]. rewrite HdA in Alo, Ahi.
    change (2 ^ (53 - 1)) with (2 ^ 52) in Alo.
    set (s := 2 ^ (- eA)) in *.
    assert (Hs : 8 <= s).
    { destruct (Z_le_gt_dec 3 (- eA)) as [H3|H3].
      - change 8 with (2 ^ 3). apply Z.pow_le_mono_r; lia.
      - assert (s <= 2 ^ 2) by (apply Z.pow_le_mono_r; lia).
        change (2 ^ 2) with 4 in H. change (2 ^ 50) with (2 ^ 48 * 4) in HT.
        change (2 ^ 52) with (2 ^ 48 * 16) in Alo. nia. }
    set (M := Z.pos mA * a) in *. set (k := shift_amt (eA - 59) M) in *.
    set (C := c * 2 ^ (59 - eA)).
    assert (HC : C = c * s * 2 ^ 59).
    { unfold C, s. replace (59 - eA) with (- eA + 59) by lia.
      rewrite Z.pow_add_r by lia. lia. }
    pose proof (pow2_pos 59 ltac:(lia)) as P59.
    assert (H10M : 10 * M = 9 * T * s * 2 ^ 59 + 128 * Z.pos mA).
    { unfold M. rewrite HmA. fold s. nia. }
    assert (Hk1 : 2 ^ 57 <= 2 ^ (k - 1) <= 2 ^ 58).
    { split; apply Z.pow_le_mono_r; lia. }
    unfold rnd_val. fold k.
    assert (HCmod : 0 <= c -> C mod 2 ^ k = 0).
    { intros _. rewrite HC. replace 59 with ((59 - k) + k) by lia.
      rewrite Z.pow_add_r by lia. rewrite Z.mul_assoc. apply Z.mod_mul.
      pose proof (pow2_pos k ltac:(lia)). lia. }
    assert (HM0 : 0 < M) by (unfold M; nia).
    change (2 ^ 57) with 144115188075855872 in Hk1.
    change (2 ^ 58) with 288230376151711744 in Hk1.
    change (2 ^ 59) with 576460752303423488 in *.
    change (2 ^ 53) with 9007199254740992 in *.
    split; intros H.
    + (* contrapositive: a cumulative sum short of the exact target *)
      destruct (Z_le_gt_dec (T * 90) (100 * c)) as [|Hgt]; [assumption|exfalso].
      destruct (Z_lt_le_dec c 0) as [Hc|Hc].
      * pose proof (rne_bounds M k ltac:(lia) ltac:(lia)) as [Rlo _].
        pose proof (pow2_pos k ltac:(lia)).
        assert (0 <= M / 2 ^ k) by (apply Z.div_pos; lia).
        assert (C < 0) by (rewrite HC; nia). nia.
      * assert (C < rne M k * 2 ^ k); [|lia].
        apply rne_near_gt; [lia| rewrite HC; nia | apply HCmod; lia |].
        assert (10 * c + 1 <= 9 * T) by lia.
        assert (10 * C + s * 576460752303423488 <= 9 * T * s * 576460752303423488).
        { rewrite HC. nia. }
        nia.
    + assert (Hc : 0 <= c) by lia.
      apply rne_near_le; [lia| rewrite HC; nia | apply HCmod; lia |].
      assert (9 * T * s * 576460752303423488 <= 10 * C).
      { rewrite HC. nia. }
      nia.
Qed.

End RoundingFacts.

Import Float64 Rounding RoundingFacts.

(** * Lists and the descending sort *)



Lemma sum_perm l1 l2 : Permutation l1 l2 -> sum l1 = sum l2.
Proof. induction 1; simpl; lia. Qed.

Lemma sum_nonneg l : Forall (fun a => 0 <= a) l -> 0 <= sum l.
Proof. induction 1; simpl; lia. Qed.

Lemma sort_reverse_perm l : Permutation l (sort_reverse l).
Proof. apply SortDescending.Permuted_sort. Qed.

Lemma sort_reverse_descending l : descending (sort_reverse l).
Proof.
  unfold descending, sort_reverse.
  assert (T : Relations_1.Transitive (fun x y : Z => is_true (ZDescending.leb x y))).
  { intros a b c. unfold ZDescending.leb, is_true. rewrite !Z.leb_le. lia. }
  pose proof (SortDescending.StronglySorted_sort l T) as H.
  induction H as [|a l' H IH Ha]; constructor; auto.
  eapply Forall_impl; [|exact Ha]. intros b. unfold ZDescending.leb, is_true.
  simpl. rewrite Z.leb_le. auto.
Qed.

Lemma sum_sort_reverse l : sum (sort_reverse l) = sum l.
Proof. symmetry. apply sum_perm, sort_reverse_perm. Qed.

Lemma seq_lens_nonneg seqs : Forall (fun a => 0 <= a) (map seq_len seqs).
Proof. apply Forall_forall. intros a [r [<- _]]%in_map_iff. unfold seq_len. lia. Qed.

Lemma sorted_lens_nonneg seqs :
  Forall (fun a => 0 <= a) (sort_reverse (map seq_len seqs)).
Proof.
  eapply Permutation_Forall; [apply sort_reverse_perm|apply seq_lens_nonneg].
Qed.

(** * The two loops *)

Lemma lx_loop_bounds t l : forall c i j,
  lx_loop t c i l = Some j -> i <= j < i + len l.
Proof.
  unfold len. induction l as [|a l IH]; intros c i j; simpl lx_loop.
  - discriminate.
  - destruct (int_ge (c + a) t).
    + intros [= <-]. simpl List.length. lia.
    + intros H%IH. simpl List.length. lia.
Qed.

(** [calculate_nx] returns the element at the rank [_calculate_lx] stops at. *)
Lemma nx_loop_lx_loop t l : forall c i,
  nx_loop t c l =
  match lx_loop t c i l with
  | Some j => Some (nth (Z.to_nat (j - i)) l 0)
  | None => None
  end.
Proof.
  induction l as [|a l IH]; intros c i; simpl nx_loop; simpl lx_loop.
  - reflexivity.
  - destruct (int_ge (c + a) t).
    + rewrite Z.sub_diag. reflexivity.
    + rewrite (IH (c + a) (i + 1)).
      destruct (lx_loop t (c + a) (i + 1) l) as [j|] eqn:Hj; [|reflexivity].
      apply lx_loop_bounds in Hj.
      replace (Z.to_nat (j - i)) with (S (Z.to_nat (j - (i + 1)))) by lia.
      reflexivity.
Qed.

Lemma nx_loop_In t l : forall c n, nx_loop t c l = Some n -> In n l.
Proof.
  induction l as [|a l IH]; intros c n; simpl nx_loop.
  - discriminate.
  - destruct (int_ge (c + a) t).
    + intros [= <-]. left; reflexivity.
    + intros H%IH. right; assumption.
Qed.

Lemma lx_loop_reached t l : forall c i,
  l <> [] -> int_ge (c + sum l) t = true -> exists j, lx_loop t c i l = Some j.
Proof.
  induction l as [|a l IH]; intros c i Hne Hge; [congruence|].
  simpl lx_loop. destruct (int_ge (c + a) t) eqn:Ha; [eauto|].
  destruct l as [|b l'].
  - simpl sum in Hge. rewrite Z.add_0_r in Hge. congruence.
  - apply IH; [discriminate|]. simpl sum in *. rewrite <- Hge. f_equal. lia.
Qed.

Lemma lx_loop_mono t1 t2 l : target_le t1 t2 -> forall c i j2,
  lx_loop t2 c i l = Some j2 ->
  exists j1, lx_loop t1 c i l = Some j1 /\ j1 <= j2.
Proof.
  intros Hle. induction l as [|a l IH]; intros c i j2; simpl lx_loop.
  - discriminate.
  - destruct (int_ge (c + a) t2) eqn:H2.
    + intros [= <-]. rewrite (Hle _ H2). exists i. split; [reflexivity|lia].
    + intros H. destruct (int_ge (c + a) t1).
      * exists i. split; [reflexivity|]. apply lx_loop_bounds in H. lia.
      * apply IH; assumption.
Qed.

Lemma nx_loop_mono t1 t2 l : target_le t1 t2 -> descending l -> forall c n2,
  nx_loop t2 c l = Some n2 ->
  exists n1, nx_loop t1 c l = Some n1 /\ n2 <= n1.
Proof.
  intros Hle Hs. induction Hs as [|a l Hs IH Ha]; intros c n2; simpl nx_loop.
  - discriminate.
  - destruct (int_ge (c + a) t2) eqn:H2.
    + intros [= <-]. rewrite (Hle _ H2). exists a. split; [reflexivity|lia].
    + intros H. destruct (int_ge (c + a) t1).
      * exists a. split; [reflexivity|]. apply nx_loop_In in H.
        rewrite Forall_forall in Ha. apply Ha; assumption.
      * apply IH; assumption.
Qed.

Lemma nx_loop_walk t T x : (forall c, int_ge c t = reaches T x c) ->
  forall l c,
    match nx_loop t c l with Some n => n | None => 0 end = nx_walk T x c l.
Proof.
  intros Ht. induction l as [|a l IH]; intros c; [reflexivity|].
  simpl nx_loop. simpl nx_walk. rewrite Ht.
  destruct (reaches T x (c + a)); [reflexivity|apply IH].
Qed.

Lemma lx_loop_walk t T x : (forall c, int_ge c t = reaches T x c) ->
  forall l c k,
    match lx_loop t c (k + 1) l with Some j => j | None => k + len l end
    = lx_walk T x c k l.
Proof.
  intros Ht. unfold len. induction l as [|a l IH]; intros c k.
  - simpl. lia.
  - simpl lx_loop. simpl lx_walk. rewrite Ht.
    destruct (reaches T x (c + a)); [reflexivity|].
    rewrite <- IH. destruct (lx_loop t (c + a) (k + 1 + 1) l); [reflexivity|].
    simpl List.length. lia.
Qed.

(** * Nx and Lx as functions of [x] *)

(** Monotonicity, given that the total converts to a float. *)
Lemma nx_lx_monotone_conv lengths x1 x2 A :
  descending lengths -> Forall (fun l => 0 <= l) lengths ->
  of_int (sum lengths) = inr A ->
  1 <= x1 -> x1 <= x2 -> x2 <= 100 ->
  exists n1 n2 l1 l2,
    calculate_nx (sum lengths) lengths x1 = inr n1 /\
    calculate_nx (sum lengths) lengths x2 = inr n2 /\
    _calculate_lx lengths x1 = inr l1 /\
    _calculate_lx lengths x2 = inr l2 /\
    n2 <= n1 /\ l1 <= l2 /\ l2 <= len lengths.
Proof.
  intros Hs Hpos HA H1 H12 H2.
  pose proof (sum_nonneg lengths Hpos) as HT.
  destruct (target_of_mono _ x1 x2 A HT H1 H12 H2 HA) as (t1 & t2 & E1 & E2 & Hle).
  unfold calculate_nx, _calculate_lx. rewrite E1, E2. cbn [bind]. unfold ret.
  eexists _, _, _, _. repeat split; try reflexivity.
  - destruct (nx_loop t2 0 lengths) as [n2|] eqn:N2.
    + destruct (nx_loop_mono t1 t2 lengths Hle Hs 0 n2 N2) as (n1 & -> & Hn). exact Hn.
    + destruct (nx_loop t1 0 lengths) as [n1|] eqn:N1; [|lia].
      apply nx_loop_In in N1. rewrite Forall_forall in Hpos. apply Hpos; assumption.
  - destruct (lx_loop t2 0 1 lengths) as [j2|] eqn:L2.
    + destruct (lx_loop_mono t1 t2 lengths Hle 0 1 j2 L2) as (j1 & -> & Hj). exact Hj.
    + destruct (lx_loop t1 0 1 lengths) as [j1|] eqn:L1; [|lia].
      apply lx_loop_bounds in L1. lia.
  - destruct (lx_loop t2 0 1 lengths) as [j2|] eqn:L2; [|lia].
    apply lx_loop_bounds in L2. lia.
Qed.

(** When the float comparison agrees with the exact one, the functions
    compute the specification's Nx and Lx. *)
Lemma calculate_nx_exact ls x :
  (forall c, exists t, target_of (sum ls) x = inr t /\ int_ge c t = reaches (sum ls) x c) ->
  calculate_nx (sum (sort_reverse ls)) (sort_reverse ls) x = inr (nx_spec ls x).
Proof.
  intros H. rewrite sum_sort_reverse. unfold calculate_nx, nx_spec.
  destruct (H 0) as (t & Et & _). rewrite Et. cbn [bind]. unfold ret. f_equal.
  apply nx_loop_walk. intros c. destruct (H c) as (t' & Et' & Hc).
  rewrite Et in Et'. injection Et' as <-. exact Hc.
Qed.

Lemma calculate_lx_exact ls x :
  (forall c, exists t, target_of (sum ls) x = inr t /\ int_ge c t = reaches (sum ls) x c) ->
  _calculate_lx (sort_reverse ls) x = inr (lx_spec ls x).
Proof.
  intros H. unfold _calculate_lx, lx_spec. rewrite sum_sort_reverse.
  destruct (H 0) as (t & Et & _). rewrite Et. cbn [bind]. unfold ret. f_equal.
  apply (lx_loop_walk t (sum ls) x) with (k := 0). intros c. destruct (H c) as (t' & Et' & Hc).
  rewrite Et in Et'. injection Et' as <-. exact Hc.
Qed.

(** The scenario of the specification: lengths 100, 50, 30. *)
Lemma nx_lx_scenario :
  calculate_nx 180 [100; 50; 30] 50 = inr 100 /\
  calculate_nx 180 [100; 50; 30] 90 = inr 30 /\
  _calculate_lx [100; 50; 30] 50 = inr 1 /\
  _calculate_lx [100; 50; 30] 90 = inr 3.
Proof. repeat split; vm_compute; reflexivity. Qed.

(** An empty input gives 0. *)
Lemma nx_empty x : 1 <= x <= 100 -> calculate_nx 0 [] x = inr 0.
Proof.
  intros Hx. destruct (target_of_reached 0 x ltac:(lia) Hx) as (t & Et & _).
  unfold calculate_nx. rewrite Et. reflexivity.
Qed.

(** * [_calculate_stats] *)

Lemma calculate_stats_inv file seqs st :
  _calculate_stats file seqs = inr st ->
  let lengths := sort_reverse (map seq_len seqs) in
  exists gc nc mean median n50 n90 l50 l90,
    percentage (sum (map gc_count seqs)) (sum lengths) = inr gc /\
    percentage (sum (map n_count seqs)) (sum lengths) = inr nc /\
    calculate_nx (sum lengths) lengths 50 = inr n50 /\
    calculate_nx (sum lengths) lengths 90 = inr n90 /\
    _calculate_lx lengths 50 = inr l50 /\
    _calculate_lx lengths 90 = inr l90 /\
    st = stats_dict file lengths mean median n50 n90 l50 l90 gc nc.
Proof.
  intros H lengths. unfold _calculate_stats in H. fold lengths in H.
  cbv zeta in H. fold lengths in H.
  inv_bind H. inv_bind H. inv_bind H. inv_bind H.
  inv_bind H. inv_bind H. inv_bind H. inv_bind H.
  injection H as <-. eexists _, _, _, _, _, _, _, _.
  repeat split; eassumption || reflexivity.
Qed.

Lemma stats_converts file seqs st :
  _calculate_stats file seqs = inr st ->
  exists A, of_int (sum (sort_reverse (map seq_len seqs))) = inr A.
Proof.
  intros H. destruct (calculate_stats_inv _ _ _ H)
    as (gc & nc & mean & median & n50 & n90 & l50 & l90 & _ & _ & H50 & _).
  unfold calculate_nx, target_of, int_mul in H50.
  destruct (int_truediv 50 100); [discriminate|]. cbn [bind] in H50.
  destruct (of_int _) as [|A]; [discriminate|]. eauto.
Qed.


(** The four statistics the script reports are the exact ones whenever the
    assembly has fewer than [2 ^ 50] residues. *)
Theorem reported_nx_lx_exact file seqs st :
  _calculate_stats file seqs = inr st ->
  sum (map seq_len seqs) < 2 ^ 50 ->
  dict_get "n50" st = Some (PyInt (nx_spec (map seq_len seqs) 50)) /\
  dict_get "n90" st = Some (PyInt (nx_spec (map seq_len seqs) 90)) /\
  dict_get "l50" st = Some (PyInt (lx_spec (map seq_len seqs) 50)) /\
  dict_get "l90" st = Some (PyInt (lx_spec (map seq_len seqs) 90)).
Proof.
  intros H HT.
  pose proof (sum_nonneg _ (seq_lens_nonneg seqs)) as HT0.
  destruct (calculate_stats_inv _ _ _ H)
    as (gc & nc & mean & median & n50 & n90 & l50 & l90
        & _ & _ & H50 & H90 & L50 & L90 & ->).
  assert (E50 : forall c, exists t, target_of (sum (map seq_len seqs)) 50 = inr t /\
                  int_ge c t = reaches (sum (map seq_len seqs)) 50 c).
  { intros c. apply target_50_exact. change (2 ^ 50) with 1125899906842624 in HT.
    change (2 ^ 53) with 9007199254740992. lia. }
  assert (E90 : forall c, exists t, target_of (sum (map seq_len seqs)) 90 = inr t /\
                  int_ge c t = reaches (sum (map seq_len seqs)) 90 c).
  { intros c. apply target_90_exact. lia. }
  rewrite (calculate_nx_exact _ 50 E50) in H50.
  rewrite (calculate_nx_exact _ 90 E90) in H90.
  rewrite (calculate_lx_exact _ 50 E50) in L50.
  rewrite (calculate_lx_exact _ 90 E90) in L90.
  injection H50 as <-. injection H90 as <-. injection L50 as <-. injection L90 as <-.
  repeat split; reflexivity.
Qed.

(** * Claims on Nx and Lx *)

(** C1 (the code departs from the claim).  The claim: for every [x] in
    (0,100], Nx is the length at which the running sum over the descending
    lengths first reaches [total * x / 100].  The script computes the target
    in binary64: for lengths 7, 6, 6, 6 and [x = 28] the exact target is 7,
    the float target is [7 + 2 ^ -50], so [calculate_nx] (and the inner loop
    of [plot_nx_curve]) skips the first record and returns 6, where the
    claim's Nx is 7. *)
Theorem C1_nx_float_target_diverges :
  target_of 25 28 = inr (S754_finite false 7881299347898369 (-50)) /\
  calculate_nx (sum [7; 6; 6; 6]) [7; 6; 6; 6] 28 = inr 6 /\
  nx_curve (sum [7; 6; 6; 6]) [7; 6; 6; 6] [28] = inr [6] /\
  nx_spec [7; 6; 6; 6] 28 = 7.
Proof. repeat split; vm_compute; reflexivity. Qed.

(** C2 (the code departs from the claim).  The claim: for every [x] in
    (0,100], Lx is the 1-based rank at which the running sum first reaches
    [total * x / 100].  Same input and same rounding as for C1: one record
    of length 7 reaches 28% of 25, but [_calculate_lx] returns 2. *)
Theorem C2_lx_float_target_diverges :
  _calculate_lx [7; 6; 6; 6] 28 = inr 2 /\ lx_spec [7; 6; 6; 6] 28 = 1.
Proof. split; vm_compute; reflexivity. Qed.

(** C3.  Nx is non-increasing and Lx is non-decreasing in [x] (integers
    from 1 to 100), for every non-empty list of non-negative lengths whose
    total is at most [2 ^ 1023], so that its conversion to a float does not
    raise; and every computed statistics dictionary has [n50 >= n90] and
    [l50 <= l90 <= num_contigs]. *)
Theorem C3_nx_lx_monotone :
  (forall ls x1 x2,
      let lengths := sort_reverse ls in
      ls <> [] -> Forall (fun l => 0 <= l) ls -> sum ls <= 2 ^ 1023 ->
      1 <= x1 -> x1 <= x2 -> x2 <= 100 ->
      exists n1 n2 l1 l2,
        calculate_nx (sum lengths) lengths x1 = inr n1 /\
        calculate_nx (sum lengths) lengths x2 = inr n2 /\
        _calculate_lx lengths x1 = inr l1 /\
        _calculate_lx lengths x2 = inr l2 /\
        n2 <= n1 /\ l1 <= l2 /\ l2 <= len lengths) /\
  (forall file seqs st,
      seqs <> [] -> _calculate_stats file seqs = inr st ->
      exists n50 n90 l50 l90 num_contigs,
        dict_get "n50" st = Some (PyInt n50) /\
        dict_get "n90" st = Some (PyInt n90) /\
        dict_get "l50" st = Some (PyInt l50) /\
        dict_get "l90" st = Some (PyInt l90) /\
        dict_get "num_contigs" st = Some (PyInt num_contigs) /\
        n90 <= n50 /\ l50 <= l90 /\ l90 <= num_contigs).
Proof.
  split.
  - intros ls x1 x2 lengths Hne Hpos HT H1 H12 H2.
    assert (Hpos' : Forall (fun l => 0 <= l) lengths).
    { eapply Permutation_Forall; [apply sort_reverse_perm|exact Hpos]. }
    assert (Hsum : sum lengths = sum ls) by apply sum_sort_reverse.
    pose proof (sum_nonneg ls Hpos) as H0.
    destruct (of_int_total (sum lengths) ltac:(lia)) as [A HA].
    apply (nx_lx_monotone_conv lengths x1 x2 A); auto.
    apply sort_reverse_descending.
  - intros file seqs st Hne H.
    destruct (stats_converts _ _ _ H) as [A HA].
    destruct (calculate_stats_inv _ _ _ H)
      as (gc & nc & mean & median & n50 & n90 & l50 & l90
          & _ & _ & H50 & H90 & L50 & L90 & ->).
    destruct (nx_lx_monotone_conv _ 50 90 A
                (sort_reverse_descending _) (sorted_lens_nonneg seqs) HA
                ltac:(lia) ltac:(lia) ltac:(lia))
      as (n1 & n2 & l1 & l2 & E1 & E2 & E3 & E4 & Hn & Hl & Hlen).
    rewrite H50 in E1. rewrite H90 in E2. rewrite L50 in E3. rewrite L90 in E4.
    injection E1 as <-. injection E2 as <-. injection E3 as <-. injection E4 as <-.
    exists n50, n90, l50, l90, (len (sort_reverse (map seq_len seqs))).
    repeat split; try reflexivity; assumption.
Qed.

Lemma C3_nx_lx_monotone_witness :
  (exists n1 n2 l1 l2,
      calculate_nx (sum (sort_reverse [30; 100; 50])) (sort_reverse [30; 100; 50]) 50
        = inr n1 /\
      calculate_nx (sum (sort_reverse [30; 100; 50])) (sort_reverse [30; 100; 50]) 90
        = inr n2 /\
      _calculate_lx (sort_reverse [30; 100; 50]) 50 = inr l1 /\
      _calculate_lx (sort_reverse [30; 100; 50]) 90 = inr l2 /\
      n2 <= n1 /\ l1 <= l2 /\ l2 <= len (sort_reverse [30; 100; 50])) /\
  (exists n50 n90 l50 l90 num_contigs,
      dict_get "n50" example_stats = Some (PyInt n50) /\
      dict_get "n90" example_stats = Some (PyInt n90) /\
      dict_get "l50" example_stats = Some (PyInt l50) /\
      dict_get "l90" example_stats = Some (PyInt l90) /\
      dict_get "num_contigs" example_stats = Some (PyInt num_contigs) /\
      n90 <= n50 /\ l50 <= l90 /\ l90 <= num_contigs).
Proof.
  split.
  - apply (proj1 C3_nx_lx_monotone [30; 100; 50] 50 90).
    + discriminate.
    + repeat constructor; lia.
    + apply Z.leb_le. vm_compute. reflexivity.
    + lia.
    + lia.
    + lia.
  - apply (proj2 C3_nx_lx_monotone "good.fasta"%string example_records example_stats).
    + discriminate.
    + vm_compute. reflexivity.
Defined.




(** * Claims on the statistics dictionary *)

(** C4.  In every computed dictionary, [lengths] is the per-record lengths
    rearranged in descending order, and [total_length] is exactly its sum
    (which is the sum of the per-record lengths). *)
Theorem C4_lengths_sorted_and_total file seqs st :
  _calculate_stats file seqs = inr st ->
  exists lengths,
    dict_get "lengths" st = Some (PyList lengths) /\
    Permutation (map seq_len seqs) lengths /\
    descending lengths /\
    dict_get "total_length" st = Some (PyInt (sum lengths)) /\
    sum lengths = sum (map seq_len seqs).
Proof.
  intros H.
  destruct (calculate_stats_inv _ _ _ H)
    as (gc & nc & mean & median & n50 & n90 & l50 & l90 & _ & _ & _ & _ & _ & _ & ->).
  exists (sort_reverse (map seq_len seqs)). repeat split.
  - apply sort_reverse_perm.
  - apply sort_reverse_descending.
  - apply sum_sort_reverse.
Qed.

Lemma C4_lengths_sorted_and_total_witness :
  exists lengths,
    dict_get "lengths" example_stats = Some (PyList lengths) /\
    Permutation (map seq_len example_records) lengths /\
    descending lengths /\
    dict_get "total_length" example_stats = Some (PyInt (sum lengths)) /\
    sum lengths = sum (map seq_len example_records).
Proof.
  apply (C4_lengths_sorted_and_total "good.fasta"%string example_records example_stats).
  vm_compute. reflexivity.
Defined.

(** ** Composition *)

Lemma count_if_app p s1 s2 :
  count_if p (s1 ++ s2) = count_if p s1 + count_if p s2.
Proof. induction s1 as [|a s1 IH]; simpl; lia. Qed.

Lemma length_app s1 s2 :
  String.length (s1 ++ s2) = (String.length s1 + String.length s2)%nat.
Proof. induction s1 as [|a s1 IH]; simpl; congruence. Qed.

Lemma gc_char a :
  (if Ascii.eqb a "G" then 1 else 0) + (if Ascii.eqb a "C" then 1 else 0)
  + (if Ascii.eqb a "g" then 1 else 0) + (if Ascii.eqb a "c" then 1 else 0)
  = if is_gc a then 1 else 0.
Proof.
  unfold is_gc.
  destruct (Ascii.eqb_spec a "G"); [subst; reflexivity|].
  destruct (Ascii.eqb_spec a "C"); [subst; reflexivity|].
  destruct (Ascii.eqb_spec a "g"); [subst; reflexivity|].
  destruct (Ascii.eqb_spec a "c"); [subst; reflexivity|].
  reflexivity.
Qed.

Lemma n_char a :
  (if Ascii.eqb a "N" then 1 else 0) + (if Ascii.eqb a "n" then 1 else 0)
  = if is_n a then 1 else 0.
Proof.
  unfold is_n.
  destruct (Ascii.eqb_spec a "N"); [subst; reflexivity|].
  destruct (Ascii.eqb_spec a "n"); [subst; reflexivity|].
  reflexivity.
Qed.

Lemma gc_count_count_if r : gc_count r = count_if is_gc (rec_seq r).
Proof.
  unfold gc_count. induction (rec_seq r) as [|a s IH]; [reflexivity|].
  cbn [count count_if]. rewrite <- IH, <- gc_char. lia.
Qed.

Lemma n_count_count_if r : n_count r = count_if is_n (rec_seq r).
Proof.
  unfold n_count. induction (rec_seq r) as [|a s IH]; [reflexivity|].
  cbn [count count_if]. rewrite <- IH, <- n_char. lia.
Qed.

Lemma total_gc_residues seqs :
  sum (map gc_count seqs) = count_if is_gc (residues seqs).
Proof.
  unfold residues. induction seqs as [|r seqs IH]; [reflexivity|].
  cbn [map sum fold_right]. rewrite count_if_app, IH, gc_count_count_if. reflexivity.
Qed.

Lemma total_n_residues seqs :
  sum (map n_count seqs) = count_if is_n (residues seqs).
Proof.
  unfold residues. induction seqs as [|r seqs IH]; [reflexivity|].
  cbn [map sum fold_right]. rewrite count_if_app, IH, n_count_count_if. reflexivity.
Qed.

Lemma total_length_residues seqs :
  sum (sort_reverse (map seq_len seqs)) = Z.of_nat (String.length (residues seqs)).
Proof.
  rewrite sum_sort_reverse. unfold residues.
  induction seqs as [|r seqs IH]; [reflexivity|].
  cbn [map sum fold_right]. rewrite length_app, IH. unfold seq_len. lia.
Qed.






(** ** Case permutations *)

Lemma swapcase_is_gc a : is_gc (swapcase a) = is_gc a.
Proof. destruct a as [[] [] [] [] [] [] [] []]; reflexivity. Qed.

Lemma swapcase_is_n a : is_n (swapcase a) = is_n a.
Proof. destruct a as [[] [] [] [] [] [] [] []]; reflexivity. Qed.

Lemma case_variant_counts s s' : case_variant s s' ->
  count_if is_gc s' = count_if is_gc s /\
  count_if is_n s' = count_if is_n s /\
  String.length s' = String.length s.
Proof.
  induction 1 as [|a s s' _ (Hg & Hn & Hl)|a s s' _ (Hg & Hn & Hl)];
    cbn [count_if String.length];
    rewrite ?swapcase_is_gc, ?swapcase_is_n, ?Hg, ?Hn, ?Hl; auto.
Qed.

Lemma case_permuted_totals seqs seqs' : case_permuted seqs seqs' ->
  map gc_count seqs' = map gc_count seqs /\
  map n_count seqs' = map n_count seqs /\
  map seq_len seqs' = map seq_len seqs.
Proof.
  induction 1 as [|r r' seqs seqs' Hr _ (Hg & Hn & Hl)]; [auto|].
  destruct (case_variant_counts _ _ Hr) as (Cg & Cn & Cl).
  cbn [map]. rewrite Hg, Hn, Hl, !gc_count_count_if, !n_count_count_if, Cg, Cn.
  unfold seq_len. rewrite Cl. auto.
Qed.

Lemma calculate_stats_case_invariant file seqs seqs' :
  case_permuted seqs seqs' ->
  _calculate_stats file seqs' = _calculate_stats file seqs.
Proof.
  intros H. destruct (case_permuted_totals _ _ H) as (Hg & Hn & Hl).
  unfold _calculate_stats. rewrite Hg, Hn, Hl. reflexivity.
Qed.

(** C6.  Replacing residue characters by their opposite-case variants
    leaves [gc_content] unchanged (the whole dictionary, in fact). *)
Theorem C6_gc_content_case_invariant file seqs seqs' st :
  case_permuted seqs seqs' ->
  _calculate_stats file seqs = inr st ->
  exists st',
    _calculate_stats file seqs' = inr st' /\
    dict_get "gc_content" st' = dict_get "gc_content" st.
Proof.
  intros H Hst. exists st. split; [|reflexivity].
  rewrite (calculate_stats_case_invariant file seqs seqs' H). exact Hst.
Qed.

Lemma C6_gc_content_case_invariant_witness :
  exists st',
    _calculate_stats "good.fasta"
      [ {| rec_id := "contig_1"; rec_seq := "gGCC" |};
        {| rec_id := "contig_2"; rec_seq := "AATT" |};
        {| rec_id := "contig_3"; rec_seq := "AaTTnX" |} ] = inr st' /\
    dict_get "gc_content" st' = dict_get "gc_content" example_stats.
Proof.
  apply (C6_gc_content_case_invariant "good.fasta"%string example_records).
  - repeat constructor.
  - vm_compute. reflexivity.
Defined.

(** * Claims on loading and comparison *)

Section LoaderFacts.

Variable w : World.



End LoaderFacts.


Section CompareFacts.

Variable w : World.

Lemma load_all_spec files :
  fst (fst (load_all w files)) = loaded w files /\
  snd (load_all w files) = warnings w files /\
  len (snd (fst (load_all w files))) = len (loaded w files).
Proof.
  unfold len. induction files as [|file files (IHa & IHw & IHn)]; [auto|].
  cbn [load_all loaded warnings flat_map].
  destruct (load_all w files) as [[analyzers names] out].
  cbn [fst snd] in *. fold (loaded w files). fold (warnings w files).
  destruct (__init__ w file) as [e|a]; cbn [fst snd app List.length];
    rewrite ?IHa, ?IHw; repeat split; try reflexivity; lia.
Qed.

Lemma warnings_no_output files :
  existsb is_comparison_output (warnings w files) = false.
Proof.
  unfold warnings. induction files as [|file files IH]; [reflexivity|].
  cbn [flat_map]. rewrite existsb_app, IH.
  destruct (__init__ w file); reflexivity.
Qed.

(** C8.  In comparison mode the analyzers are those of the inputs that
    load, in order; an input that fails to load is left out and adds one
    printed warning, whatever comes before or after it; with fewer than two
    loaded inputs the output is the warnings followed by the message that at
    least two valid assemblies are needed, and nothing else (no table, no
    figure, no file); with two or more, the table has one row per loaded
    input. *)
Theorem C8_comparison_needs_two_valid files output_dir :
  fst (fst (load_all w files)) = loaded w files /\
  (forall pre file post e,
      files = pre ++ file :: post -> __init__ w file = inl e ->
      loaded w files = loaded w pre ++ loaded w post /\
      warnings w files =
        warnings w pre
        ++ Stdout ("Error processing " ++ file ++ ": " ++ exn_str e) :: warnings w post) /\
  (len (loaded w files) < 2 ->
   compare_assemblies w files output_dir =
     warnings w files ++ [Stdout "Need at least 2 valid assemblies for comparison"] /\
   existsb is_comparison_output (compare_assemblies w files output_dir) = false) /\
  (2 <= len (loaded w files) ->
   exists rows rest,
     compare_assemblies w files output_dir =
       warnings w files
       ++ [Stdout (String "010" "Assembly Comparison:"); Stdout (rule 80);
           Table comparison_cols rows; Stdout (rule 80)] ++ rest /\
     len rows = len (loaded w files)).
Proof.
  destruct (load_all_spec files) as (Ha & Hw & Hn).
  split; [exact Ha|]. split; [|split].
  - intros pre file post e -> He. unfold loaded, warnings.
    rewrite !flat_map_app. cbn [flat_map]. rewrite He. cbn [app]. auto.
  - intros Hlt. unfold compare_assemblies.
    destruct (load_all w files) as [[analyzers names] out]. cbn [fst snd] in *.
    subst analyzers out.
    replace (len (loaded w files) <? 2) with true by (symmetry; apply Z.ltb_lt; lia).
    split; [reflexivity|].
    rewrite existsb_app, warnings_no_output. reflexivity.
  - intros Hge. unfold compare_assemblies.
    destruct (load_all w files) as [[analyzers names] out]. cbn [fst snd] in *.
    subst analyzers out.
    replace (len (loaded w files) <? 2) with false by (symmetry; apply Z.ltb_ge; lia).
    eexists _, _. split.
    + cbn [app]. reflexivity.
    + unfold len in *. rewrite !length_map, length_combine. lia.
Qed.

End CompareFacts.

Lemma C8_comparison_needs_two_valid_witness :
  compare_assemblies example_world ["good.fasta"; "missing.fasta"]%string None =
    [Stdout "Error processing missing.fasta: Assembly file not found: missing.fasta";
     Stdout "Need at least 2 valid assemblies for comparison"] /\
  existsb is_comparison_output
    (compare_assemblies example_world ["good.fasta"; "missing.fasta"]%string None) = false.
Proof.
  apply (proj1 (proj2 (proj2 (C8_comparison_needs_two_valid example_world
                                ["good.fasta"; "missing.fasta"]%string None)))).
  vm_compute. reflexivity.
Defined.

(** With two valid inputs and one missing, the table has two rows. *)
Lemma compare_two_valid :
  exists rows rest,
    compare_assemblies example_world
      ["good.fasta"; "missing.fasta"; "other.fasta"]%string None =
      warnings example_world ["good.fasta"; "missing.fasta"; "other.fasta"]%string
      ++ [Stdout (String "010" "Assembly Comparison:"); Stdout (rule 80);
          Table comparison_cols rows; Stdout (rule 80)] ++ rest /\
    len rows = 2.
Proof.
  destruct (load_all_spec example_world
              ["good.fasta"; "missing.fasta"; "other.fasta"]%string) as (Ha & Hw & _).
  unfold compare_assemblies.
  destruct (load_all example_world _) as [[analyzers names] out] eqn:E.
  cbn [fst snd] in Ha, Hw. subst out.
  assert (Hn : len analyzers = 2) by (rewrite Ha; vm_compute; reflexivity).
  assert (Hm : List.length names = 2%nat).
  { change names with (snd (fst (analyzers, names,
      warnings example_world ["good.fasta"; "missing.fasta"; "other.fasta"]%string))).
    rewrite <- E. vm_compute. reflexivity. }
  rewrite Hn. cbn [Z.ltb Z.compare Pos.compare Pos.compare_cont].
  eexists _, _. split; [cbn [app]; reflexivity|].
  unfold len in *. rewrite !length_map, length_combine. lia.
Qed.

Lemma dict_get_basic k d :
  k <> "lengths"%string -> dict_get k (get_basic_stats_of d) = dict_get k d.
Proof.
  intros Hk. unfold get_basic_stats_of.
  induction d as [|[k' v] d IH]; [reflexivity|].
  cbn [filter fst dict_get].
  destruct (String.eqb_spec k' "lengths") as [->|Hk']; cbn [negb dict_get].
  - destruct (String.eqb_spec "lengths" k); [congruence|]. exact IH.
  - rewrite IH. reflexivity.
Qed.

Lemma init_inv w file a :
  __init__ w file = inr a ->
  path_exists w file = true /\
  exists seqs st,
    _load_sequences w file = inr seqs /\
    _calculate_stats (path_str w file) seqs = inr st /\
    a = {| assembly_file := path_str w file; sequences := seqs; stats := st |}.
Proof.
  unfold __init__. destruct (path_exists w file); cbn [negb]; [|discriminate].
  intros H. inv_bind H. inv_bind H. injection H as <-. split; [reflexivity|]. eauto.
Qed.

(** C10.  For every analyzer that was built, the basic statistics have the
    keys of the full dictionary except [lengths], with the same values, and
    the first of them is [file], the input path as a string. *)
Theorem C10_basic_stats_fields w file a :
  __init__ w file = inr a ->
  dict_keys (stats a) = basic_keys ++ ["lengths"%string] /\
  dict_keys (get_basic_stats a) = basic_keys /\
  (forall k, k <> "lengths"%string ->
             dict_get k (get_basic_stats a) = dict_get k (stats a)) /\
  dict_get "lengths" (get_basic_stats a) = None /\
  dict_get "file" (get_basic_stats a) = Some (PyStr (path_str w file)).
Proof.
  intros H. destruct (init_inv w file a H) as (_ & seqs & st & _ & Hst & ->).
  destruct (calculate_stats_inv _ _ _ Hst)
    as (gc & nc & mean & median & n50 & n90 & l50 & l90 & _ & _ & _ & _ & _ & _ & ->).
  unfold get_basic_stats. cbn [stats].
  repeat split; try reflexivity.
  intros k Hk. apply dict_get_basic. exact Hk.
Qed.

Lemma C10_basic_stats_fields_witness :
  dict_keys (stats example_analyzer) = basic_keys ++ ["lengths"%string] /\
  dict_keys (get_basic_stats example_analyzer) = basic_keys /\
  (forall k, k <> "lengths"%string ->
             dict_get k (get_basic_stats example_analyzer)
             = dict_get k (stats example_analyzer)) /\
  dict_get "lengths" (get_basic_stats example_analyzer) = None /\
  dict_get "file" (get_basic_stats example_analyzer)
  = Some (PyStr (path_str example_world "good.fasta")).
Proof.
  apply (C10_basic_stats_fields example_world "good.fasta"%string example_analyzer).
  vm_compute. reflexivity.
Defined.

(** * Rounding of quotients

    Division rounds a quotient with a remainder.  The position of the
    remainder is coded in two extra bits, which reduces the rounding of
    [SFdiv] to the exact-input rounding characterised above. *)

Lemma Zdigits2_sticky M c : 0 < M -> 0 <= c <= 3 -> Zdigits2 (4 * M + c) = Zdigits2 M + 2.
Proof.
  intros HM Hc. pose proof (Zdigits2_bounds M HM) as [Lo Hi].
  pose proof (Zdigits2_pos M HM).
  apply Zdigits2_unique; [|lia].
  replace (Zdigits2 M + 2 - 1) with (Zdigits2 M - 1 + 2) by lia.
  rewrite !Z.pow_add_r by lia. change (2 ^ 2) with 4. lia.
Qed.

Lemma div4 M c : 0 <= c <= 3 -> (4 * M + c) / 4 = M.
Proof. intros. symmetry. apply (Z.div_unique _ 4 M c); lia. Qed.

Lemma div2_odd M c : 0 <= c <= 3 -> Z.odd ((4 * M + c) / 2) = (2 <=? c).
Proof.
  intros Hc. destruct (Z.leb_spec 2 c).
  - replace ((4 * M + c) / 2) with (2 * M + 1).
    + rewrite Z.odd_add, Z.odd_even. reflexivity.
    + apply (Z.div_unique _ 2 _ (c - 2)); lia.
  - replace ((4 * M + c) / 2) with (2 * M).
    + apply Z.odd_even.
    + apply (Z.div_unique _ 2 _ c); lia.
Qed.

Lemma mod2_code M c : 0 <= c <= 3 -> (4 * M + c) mod 2 = c mod 2.
Proof.
  intros. replace (4 * M + c) with (c + (2 * M) * 2) by lia.
  apply Z.mod_add. lia.
Qed.

Lemma shr_record_sticky M l : 0 <= M ->
  Nat.iter 2 shr_1 {| shr_m := 4 * M + loc_code l; shr_r := false; shr_s := false |}
  = shr_record_of_loc M l.
Proof.
  intros HM.
  assert (Hc : 0 <= loc_code l <= 3) by (destruct l as [|[]]; simpl; lia).
  rewrite (shr_iter_spec (4 * M + loc_code l) 1) by lia.
  change (Z.of_nat 2) with 2. change (Z.of_nat 1) with 1.
  change (2 ^ 2) with 4. change (2 ^ 1) with 2.
  rewrite div4, div2_odd, mod2_code by lia.
  destruct l as [|[]]; reflexivity.
Qed.

(** Rounding with an inexact position is rounding of the exact value that
    carries the position in two extra bits. *)
Lemma bra_sticky s M e l :
  0 < M -> e <= fexp prec emax (Zdigits2 M + e) ->
  binary_round_aux prec emax s M e l = bra s (4 * M + loc_code l) (e - 2) loc_Exact.
Proof.
  intros HM Hn.
  assert (Hc : 0 <= loc_code l <= 3) by (destruct l as [|[]]; simpl; lia).
  unfold bra, binary_round_aux.
  assert (Hfst : shr_fexp prec emax M e l
                 = shr_fexp prec emax (4 * M + loc_code l) (e - 2) loc_Exact).
  { unfold shr_fexp. rewrite Zdigits2_sticky by lia.
    replace (Zdigits2 M + 2 + (e - 2)) with (Zdigits2 M + e) by lia.
    set (E := fexp prec emax (Zdigits2 M + e)) in *.
    cbn [shr_record_of_loc]. unfold shr.
    destruct (E - (e - 2)) as [|p|p] eqn:E1; try lia.
    rewrite iter_pos_nat.
    destruct (E - e) as [|q|q] eqn:E2; try lia.
    - assert (Hp : Pos.to_nat p = 2%nat) by lia. rewrite Hp.
      change (shr_record_of_loc (4 * M + loc_code l) loc_Exact)
        with {| shr_m := 4 * M + loc_code l; shr_r := false; shr_s := false |}.
      rewrite shr_record_sticky by lia. f_equal. lia.
    - rewrite iter_pos_nat.
      assert (Hp : Pos.to_nat p = (Pos.to_nat q + 2)%nat) by lia.
      rewrite Hp, Nat.iter_add.
      change (shr_record_of_loc (4 * M + loc_code l) loc_Exact)
        with {| shr_m := 4 * M + loc_code l; shr_r := false; shr_s := false |}.
      rewrite shr_record_sticky by lia. f_equal. lia. }
  rewrite Hfst. reflexivity.
Qed.

Lemma new_location_zero nb : new_location nb 0 = loc_Exact.
Proof.
  unfold new_location, new_location_even, new_location_odd.
  destruct (Z.even nb); reflexivity.
Qed.

(** The quotient of two positive integers, before rounding: an integer
    quotient of at least 53 bits and the position of the remainder. *)
Lemma SFdiv_pos a b : 0 < a -> 0 < b < 2 ^ 1000 ->
  exists q r c s,
    0 <= s /\ a * 2 ^ s = q * b + r /\ 0 <= r < b /\ 2 ^ 52 <= q /\
    0 <= c <= 3 /\ (r = 0 -> c = 0) /\
    SFdiv prec emax (S754_finite false (Z.to_pos a) 0) (S754_finite false (Z.to_pos b) 0)
    = bra false (4 * q + c) (- s - 2) loc_Exact.
Proof.
  intros Ha Hb. destruct a as [|pa|pa]; try lia. destruct b as [|pb|pb]; try lia.
  cbn [Z.to_pos SFdiv xorb]. unfold SFdiv_core_binary.
  pose proof (Zdigits2_bounds (Z.pos pa) ltac:(lia)) as [Alo Ahi].
  pose proof (Zdigits2_bounds (Z.pos pb) ltac:(lia)) as [Blo Bhi].
  pose proof (Zdigits2_pos (Z.pos pa) ltac:(lia)) as Apos.
  pose proof (Zdigits2_pos (Z.pos pb) ltac:(lia)) as Bpos.
  set (d1 := Zdigits2 (Z.pos pa)) in *. set (d2 := Zdigits2 (Z.pos pb)) in *.
  assert (Hd2 : d2 <= 1000).
  { destruct (Z_le_gt_dec d2 1000); auto.
    assert (2 ^ 1000 <= 2 ^ (d2 - 1)) by (apply Z.pow_le_mono_r; lia). lia. }
  rewrite fexp_eq.
  set (e' := Z.min (Z.max (d1 + 0 - (d2 + 0) - 53) (-1074)) (0 - 0)).
  set (s := 0 - 0 - e').
  assert (Hs : 0 <= s /\ 53 + d2 - d1 <= s) by (unfold s, e'; lia).
  set (m' := match s with Z.pos _ => Z.shiftl (Z.pos pa) s | 0 => Z.pos pa | Z.neg _ => 0 end).
  assert (Hm' : m' = Z.pos pa * 2 ^ s).
  { unfold m'. destruct s as [|p|p] eqn:Es; try lia.
    rewrite Z.shiftl_mul_pow2 by lia. reflexivity. }
  pose proof (Z.div_mod m' (Z.pos pb) ltac:(lia)) as Hdm.
  pose proof (Z.mod_pos_bound m' (Z.pos pb) ltac:(lia)) as Hr.
  unfold Z.div, Z.modulo in Hdm, Hr.
  destruct (Z.div_eucl m' (Z.pos pb)) as [q r]. cbn [fst snd] in Hdm, Hr.
  assert (Hq : 2 ^ 52 <= q).
  { assert (H1 : 2 ^ 52 * Z.pos pb <= m').
    { rewrite Hm'.
      assert (2 ^ (52 + d2) <= 2 ^ (d1 - 1 + s)) by (apply Z.pow_le_mono_r; lia).
      rewrite !Z.pow_add_r in H by lia.
      pose proof (pow2_pos s ltac:(lia)). pose proof (pow2_pos 52 ltac:(lia)).
      pose proof (pow2_pos (d1 - 1) ltac:(lia)). nia. }
    pose proof (pow2_pos 52 ltac:(lia)). nia. }
  exists q, r, (loc_code (new_location (Z.pos pb) r)), s.
  repeat split; try lia.
  - destruct (new_location _ _) as [|[]]; simpl; lia.
  - destruct (new_location _ _) as [|[]]; simpl; lia.
  - intros ->. rewrite new_location_zero. reflexivity.
  - replace (- s - 2) with (e' - 2) by (unfold s; lia).
    apply bra_sticky; [lia|].
    pose proof (Zdigits2_mono (2 ^ 52) q ltac:(lia)) as Hdq.
    assert (Zdigits2 (2 ^ 52) = 53) by reflexivity.
    rewrite fexp_eq. unfold e'. lia.
Qed.

Lemma int_le_finite c m e2 e : e <= e2 ->
  int_le c (S754_finite false m e2) = scaled_ge (Zpos m * 2 ^ (e2 - e)) e c.
Proof.
  intros He. unfold int_le, scaled_ge.
  pose proof (pow2_pos (e2 - e) ltac:(lia)) as Pd.
  destruct (0 <=? e2) eqn:H2; destruct (0 <=? e) eqn:H1; try lia.
  - assert (E : Z.pos m * 2 ^ (e2 - e) * 2 ^ e = Z.pos m * 2 ^ e2).
    { rewrite <- Z.mul_assoc, <- Z.pow_add_r by lia.
      replace (e2 - e + e) with e2 by lia. reflexivity. }
    rewrite E. reflexivity.
  - pose proof (pow2_pos (- e) ltac:(lia)) as Pe.
    pose proof (pow2_pos e2 ltac:(lia)) as Pe2.
    assert (E : 2 ^ (e2 - e) = 2 ^ e2 * 2 ^ (- e)).
    { rewrite <- Z.pow_add_r by lia. replace (e2 + - e) with (e2 - e) by lia. reflexivity. }
    rewrite E. apply Bool.eq_true_iff_eq. rewrite !Z.leb_le. nia.
  - pose proof (pow2_pos (- e2) ltac:(lia)) as Pe2.
    assert (E : 2 ^ (- e) = 2 ^ (- e2) * 2 ^ (e2 - e)).
    { rewrite <- Z.pow_add_r by lia. replace (- e2 + (e2 - e)) with (- e) by lia. reflexivity. }
    rewrite E. apply Bool.eq_true_iff_eq. rewrite !Z.leb_le. nia.
Qed.

Lemma int_le_bra c M e : 0 < M ->
  scaled_ge (rnd_val e M) e c = true -> int_le c (bra false M e loc_Exact) = true.
Proof.
  intros HM. destruct (bra_spec false M e HM) as [[HV Hb]|(m & e2 & He & Hm & He2 & Hb)].
  - rewrite Hb, HV. unfold scaled_ge. simpl int_le.
    destruct (0 <=? e) eqn:H1.
    + simpl. auto.
    + pose proof (pow2_pos (- e) ltac:(lia)).
      intros H0%Z.leb_le. apply Z.leb_le. nia.
  - rewrite Hb. destruct (e2 <=? emax - prec); [|reflexivity].
    rewrite (int_le_finite c m e2 e He), Hm. auto.
Qed.

(** A float produced by rounding a non-negative value is not negative. *)
Lemma int_le_0_bra M e : 0 < M -> int_le 0 (bra false M e loc_Exact) = true.
Proof.
  intros HM. apply int_le_bra; [assumption|].
  pose proof (rnd_val_nonneg e M ltac:(lia)).
  unfold scaled_ge. destruct (0 <=? e) eqn:He; apply Z.leb_le.
  - pose proof (pow2_pos e ltac:(lia)). nia.
  - lia.
Qed.

(** Upper bound: if [a <= c * b] then the float [a / b] is at most [c]. *)
Lemma truediv_le_int a b c :
  0 < a -> 0 < b < 2 ^ 1000 -> 0 <= c < 2 ^ 53 -> a <= c * b ->
  exists f, int_truediv a b = inr f /\ int_ge c f = true /\ int_le 0 f = true.
Proof.
  intros Ha Hb Hc Hab.
  destruct (SFdiv_pos a b Ha Hb) as (q & r & k & s & Hs & Hdiv & Hr & Hq & Hk & Hk0 & Hf).
  unfold int_truediv. destruct b as [|pb|pb]; try lia. destruct a as [|pa|pa]; try lia.
  change (Z.pos pa <? 0) with false. change (Z.pos pb <? 0) with false.
  change (Z.abs (Z.pos pa)) with (Z.pos pa). change (Z.abs (Z.pos pb)) with (Z.pos pb).
  rewrite Hf. clear Hf.
  pose proof (pow2_pos s Hs) as Ps. pose proof (pow2_pos 52 ltac:(lia)) as P52.
  set (N := 4 * q + k). set (P := c * 2 ^ (s + 2)).
  assert (HP : P = 4 * (c * 2 ^ s)).
  { unfold P. rewrite Z.pow_add_r by lia. change (2 ^ 2) with 4. lia. }
  assert (HN0 : 0 < N) by (unfold N; lia).
  assert (HNP : N <= P).
  { assert (q <= c * 2 ^ s) by nia.
    destruct (Z.eq_dec q (c * 2 ^ s)) as [Heq|Hne].
    - assert (r = 0) by nia. rewrite (Hk0 H0) in *. unfold N. lia.
    - unfold N. lia. }
  assert (Hc0 : 0 < c) by nia.
  assert (HdP : forall V, 0 < V <= P -> Zdigits2 V <= 55 + s).
  { intros V HV. pose proof (Zdigits2_bounds V ltac:(lia)) as [Vlo _].
    destruct (Z_le_gt_dec (Zdigits2 V) (55 + s)); auto.
    assert (2 ^ (55 + s) <= 2 ^ (Zdigits2 V - 1)) by (apply Z.pow_le_mono_r; lia).
    assert (P < 2 ^ (55 + s)).
    { unfold P. replace (55 + s) with (53 + (s + 2)) by lia.
      rewrite (Z.pow_add_r 2 53) by lia. pose proof (pow2_pos (s + 2) ltac:(lia)). nia. }
    lia. }
  assert (Hk' : 0 <= shift_amt (- s - 2) N <= s + 2).
  { pose proof (HdP N ltac:(lia)). pose proof (Zdigits2_pos N HN0).
    unfold shift_amt. rewrite fexp_eq. lia. }
  assert (HV : rnd_val (- s - 2) N <= P).
  { unfold rnd_val. apply rne_grid_le; try lia.
    unfold P. replace (s + 2) with ((s + 2 - shift_amt (- s - 2) N) + shift_amt (- s - 2) N) by lia.
    rewrite Z.pow_add_r by lia. rewrite Z.mul_assoc. apply Z.mod_mul.
    pose proof (pow2_pos (shift_amt (- s - 2) N)); lia. }
  pose proof (rnd_val_nonneg (- s - 2) N ltac:(lia)) as HV0.
  assert (Hge : int_ge c (bra false N (- s - 2) loc_Exact) = true).
  { apply int_ge_bra; [lia|]. split.
    - destruct (Z.eq_dec (rnd_val (- s - 2) N) 0); [left; auto|right].
      pose proof (HdP (rnd_val (- s - 2) N) ltac:(lia)).
      pose proof (Zdigits2_pos (rnd_val (- s - 2) N) ltac:(lia)).
      unfold emax, prec. rewrite fexp_eq. lia.
    - unfold scaled_le.
      replace (0 <=? - s - 2) with false by (symmetry; apply Z.leb_gt; lia).
      apply Z.leb_le. replace (- (- s - 2)) with (s + 2) by lia. exact HV. }
  pose proof (int_le_0_bra N (- s - 2) HN0) as Hle.
  destruct (bra false N (- s - 2) loc_Exact) as [sz|si| |sf m e] eqn:Ef.
  - eexists; repeat split; eauto.
  - simpl in Hge. simpl in Hle. destruct si; discriminate.
  - discriminate.
  - eexists; repeat split; eauto.
Qed.

(** Lower bound: if [c * b <= a] then the float [a / b] is at least [c]. *)
Lemma truediv_ge_int a b c f :
  0 < a -> 0 < b < 2 ^ 1000 -> 0 <= c < 2 ^ 53 -> c * b <= a ->
  int_truediv a b = inr f -> int_le c f = true.
Proof.
  intros Ha Hb Hc Hab.
  destruct (SFdiv_pos a b Ha Hb) as (q & r & k & s & Hs & Hdiv & Hr & Hq & Hk & Hk0 & Hf).
  unfold int_truediv. destruct b as [|pb|pb]; try lia. destruct a as [|pa|pa]; try lia.
  change (Z.pos pa <? 0) with false. change (Z.pos pb <? 0) with false.
  change (Z.abs (Z.pos pa)) with (Z.pos pa). change (Z.abs (Z.pos pb)) with (Z.pos pb).
  rewrite Hf. clear Hf.
  pose proof (pow2_pos s Hs) as Ps. pose proof (pow2_pos 52 ltac:(lia)) as P52.
  pose proof (pow2_pos (s + 2) ltac:(lia)) as Ps2.
  set (N := 4 * q + k). set (P := c * 2 ^ (s + 2)).
  assert (HP : P = 4 * (c * 2 ^ s)).
  { unfold P. rewrite Z.pow_add_r by lia. change (2 ^ 2) with 4. lia. }
  assert (HN0 : 0 < N) by (unfold N; lia).
  assert (HP0 : 0 <= P) by (unfold P; nia).
  assert (HNP : P <= N).
  { assert (c * 2 ^ s <= q) by nia. unfold N. lia. }
  pose proof (shift_amt_nonneg (- s - 2) N) as Hsh.
  assert (Hle : int_le c (bra false N (- s - 2) loc_Exact) = true).
  { apply int_le_bra; [lia|]. unfold scaled_ge.
    replace (0 <=? - s - 2) with false by (symmetry; apply Z.leb_gt; lia).
    apply Z.leb_le. replace (- (- s - 2)) with (s + 2) by lia. fold P.
    unfold rnd_val.
    destruct (Z_le_gt_dec (shift_amt (- s - 2) N) (s + 2)) as [Hk'|Hk'].
    - apply rne_grid_ge; [lia|lia|].
      unfold P. replace (s + 2) with ((s + 2 - shift_amt (- s - 2) N) + shift_amt (- s - 2) N) by lia.
      rewrite Z.pow_add_r by lia. rewrite Z.mul_assoc. apply Z.mod_mul.
      pose proof (pow2_pos (shift_amt (- s - 2) N)); lia.
    - (* the quotient is at least [2 ^ 53], above every admissible [c] *)
      pose proof (Zdigits2_bounds N HN0) as [Nlo Nhi].
      assert (Hsh' : shift_amt (- s - 2) N = Zdigits2 N - 53).
      { unfold shift_amt in *. rewrite fexp_eq in *. lia. }
      apply Z.le_trans with (2 ^ (Zdigits2 N - 1)).
      + assert (2 ^ (53 + (s + 2)) <= 2 ^ (Zdigits2 N - 1)) by (apply Z.pow_le_mono_r; lia).
        rewrite Z.pow_add_r in H by lia. unfold P. nia.
      + apply rne_grid_ge; [lia| |].
        * pose proof (pow2_pos (Zdigits2 N - 1) ltac:(lia)). lia.
        * apply pow2_mod_0. lia. }
  destruct (bra false N (- s - 2) loc_Exact) as [sz|si| |sf m e] eqn:Ef; intros [= <-]; auto.
Qed.

(** A ratio in [[0, 1]] times 100 is a percentage in [[0, 100]]. *)
Lemma mul_int_100_bounds f :
  int_le 0 f = true -> int_ge 1 f = true ->
  exists p, mul_int f 100 = inr p /\ int_le 0 p = true /\ int_ge 100 p = true.
Proof.
  intros H0 H1. unfold mul_int.
  change (of_int 100) with (@inr exn float (S754_finite false 7036874417766400 (-46))).
  cbn [bind]. unfold ret. eexists. split; [reflexivity|].
  destruct f as [s|s| |s m e]; try discriminate.
  - cbn [SFmul]. split; reflexivity.
  - destruct s; discriminate.
  - destruct s.
    { exfalso. revert H0. unfold int_le. destruct (0 <=? e) eqn:He.
      - pose proof (pow2_pos e ltac:(lia)). intros Hx%Z.leb_le. nia.
      - intros Hx%Z.leb_le. lia. }
    cbn [SFmul xorb]. fold bra. rewrite Pos2Z.inj_mul.
    set (M := Z.pos m * 7036874417766400). set (e' := e + -46).
    assert (HM : 0 < M) by (unfold M; lia).
    assert (He : e <= 0 /\ Z.pos m <= 2 ^ (- e)).
    { revert H1. unfold int_ge. destruct (0 <=? e) eqn:He.
      - pose proof (pow2_pos e ltac:(lia)). intros Hx%Z.leb_le.
        assert (e = 0).
        { destruct (Z.eq_dec e 0); auto.
          assert (Hy : 2 ^ 1 <= 2 ^ e) by (apply Z.pow_le_mono_r; lia).
          change (2 ^ 1) with 2 in Hy. nia. }
        subst e. simpl in *. lia.
      - intros Hx%Z.leb_le. lia. }
    destruct He as [He Hm].
    pose proof (pow2_pos (- e) ltac:(lia)) as Pe.
    set (P := 25 * 2 ^ (48 - e)).
    assert (HP : P = 7036874417766400 * 2 ^ (- e)).
    { unfold P. replace (48 - e) with (48 + - e) by lia. rewrite Z.pow_add_r by lia.
      change (2 ^ 48) with 281474976710656. lia. }
    assert (HP100 : P = 100 * 2 ^ (- e')).
    { unfold P, e'. replace (48 - e) with (2 + - (e + -46)) by lia.
      rewrite Z.pow_add_r by lia. change (2 ^ 2) with 4. lia. }
    assert (HMP : M <= P) by (rewrite HP; unfold M; nia).
    assert (HP53 : P <= 2 ^ (53 - e)).
    { rewrite HP. replace (53 - e) with (53 + - e) by lia. rewrite Z.pow_add_r by lia.
      change (2 ^ 53) with 9007199254740992. nia. }
    assert (Hdig : forall V, 0 < V <= P -> Zdigits2 V <= 54 - e).
    { intros V HV. replace (54 - e) with (53 - e + 1) by lia.
      apply Zdigits2_le_of_lt; lia. }
    pose proof (Hdig M ltac:(lia)) as HdM. pose proof (Zdigits2_pos M HM) as HdM0.
    assert (Hk : 0 <= shift_amt e' M <= 48 - e).
    { unfold shift_amt, e'. rewrite fexp_eq. lia. }
    assert (HV : rnd_val e' M <= P).
    { unfold rnd_val. apply rne_grid_le; try lia.
      unfold P. replace (48 - e) with ((48 - e - shift_amt e' M) + shift_amt e' M) by lia.
      rewrite Z.pow_add_r by lia. rewrite Z.mul_assoc. apply Z.mod_mul.
      pose proof (pow2_pos (shift_amt e' M)); lia. }
    pose proof (rnd_val_nonneg e' M ltac:(lia)) as HV0.
    split; [apply int_le_0_bra; assumption|].
    apply int_ge_bra; [assumption|]. split.
    + destruct (Z.eq_dec (rnd_val e' M) 0); [left; auto|right].
      pose proof (Hdig (rnd_val e' M) ltac:(lia)).
      pose proof (Zdigits2_pos (rnd_val e' M) ltac:(lia)).
      assert (Ee : e' = e + -46) by reflexivity.
      unfold emax, prec. rewrite fexp_eq. lia.
    + unfold scaled_le.
      replace (0 <=? e') with false by (symmetry; apply Z.leb_gt; unfold e'; lia).
      apply Z.leb_le. rewrite <- HP100. exact HV.
Qed.

(** * Percentages *)

Lemma count_if_bounds s :
  0 <= count_if is_gc s /\ 0 <= count_if is_n s /\
  count_if is_gc s + count_if is_n s <= Z.of_nat (String.length s).
Proof.
  induction s as [|a s (Hg & Hn & Hs)]; [simpl; lia|].
  cbn [count_if String.length].
  assert (Hd : (if is_gc a then 1 else 0) + (if is_n a then 1 else 0) <= 1).
  { destruct a as [[] [] [] [] [] [] [] []]; vm_compute; discriminate. }
  destruct (is_gc a); destruct (is_n a); lia.
Qed.

Lemma ratio_bounds a b : 0 <= a <= b -> 0 < b < 2 ^ 1000 ->
  exists f, int_truediv a b = inr f /\ int_le 0 f = true /\ int_ge 1 f = true.
Proof.
  intros Ha Hb. destruct (Z.eq_dec a 0) as [->|Ha0].
  - unfold int_truediv. destruct b; try lia. eexists. split; [reflexivity|].
    split; reflexivity.
  - destruct (truediv_le_int a b 1 ltac:(lia) Hb ltac:(split; [lia|reflexivity]) ltac:(lia))
      as (f & Hf & Hge & Hle). eauto.
Qed.

Lemma percentage_bounds part total v :
  0 <= part <= total -> total < 2 ^ 1000 -> percentage part total = inr v ->
  (total = 0 /\ v = PyInt 0) \/
  (0 < total /\ exists p, v = PyFloat p /\ int_le 0 p = true /\ int_ge 100 p = true).
Proof.
  intros Hp Ht. unfold percentage. destruct (Z.ltb_spec 0 total) as [H0|H0].
  - destruct (ratio_bounds part total Hp ltac:(lia)) as (f & -> & Hle & Hge).
    cbn [bind]. destruct (mul_int_100_bounds f Hle Hge) as (p & -> & Hp0 & Hp100).
    cbn [bind]. intros [= <-]. right. split; [assumption|]. eauto.
  - intros [= <-]. left. split; [lia|reflexivity].
Qed.

(** The two percentages are in range.  When the total length is 0 both are
    the integer 0; otherwise both are floats between 0 and 100. *)
Theorem stats_percentages_in_range file seqs st :
  _calculate_stats file seqs = inr st ->
  sum (map seq_len seqs) < 2 ^ 1000 ->
  (sum (map seq_len seqs) = 0 /\
   dict_get "gc_content" st = Some (PyInt 0) /\
   dict_get "n_content" st = Some (PyInt 0)) \/
  (0 < sum (map seq_len seqs) /\
   exists g n,
     dict_get "gc_content" st = Some (PyFloat g) /\
     dict_get "n_content" st = Some (PyFloat n) /\
     int_le 0 g = true /\ int_ge 100 g = true /\
     int_le 0 n = true /\ int_ge 100 n = true).
Proof.
  intros H HT.
  destruct (calculate_stats_inv _ _ _ H)
    as (gc & nc & mean & median & n50 & n90 & l50 & l90 & Hgc & Hnc & _ & _ & _ & _ & ->).
  rewrite sum_sort_reverse in Hgc, Hnc.
  pose proof (count_if_bounds (residues seqs)) as (Cg & Cn & Cs).
  rewrite <- total_gc_residues, <- total_n_residues, <- total_length_residues,
    sum_sort_reverse in Cs.
  rewrite <- total_gc_residues in Cg. rewrite <- total_n_residues in Cn.
  apply percentage_bounds in Hgc; [|lia|lia].
  apply percentage_bounds in Hnc; [|lia|lia].
  destruct Hgc as [[T0 ->]|[Tpos (g & -> & Hg0 & Hg100)]];
    destruct Hnc as [[T0' ->]|[Tpos' (n & -> & Hn0 & Hn100)]]; try lia.
  - left. repeat split; assumption || reflexivity.
  - right. split; [assumption|]. exists g, n. repeat split; assumption || reflexivity.
Qed.

Lemma stats_percentages_in_range_witness :
  (sum (map seq_len example_records) = 0 /\
   dict_get "gc_content" example_stats = Some (PyInt 0) /\
   dict_get "n_content" example_stats = Some (PyInt 0)) \/
  (0 < sum (map seq_len example_records) /\
   exists g n,
     dict_get "gc_content" example_stats = Some (PyFloat g) /\
     dict_get "n_content" example_stats = Some (PyFloat n) /\
     int_le 0 g = true /\ int_ge 100 g = true /\
     int_le 0 n = true /\ int_ge 100 n = true).
Proof.
  apply (stats_percentages_in_range "good.fasta"%string example_records example_stats).
  - vm_compute. reflexivity.
  - vm_compute. reflexivity.
Defined.

(** * Longest, shortest and mean *)

Lemma fold_max_spec l : forall a,
  a <= fold_left Z.max l a /\
  Forall (fun x => x <= fold_left Z.max l a) l /\
  (fold_left Z.max l a = a \/ In (fold_left Z.max l a) l).
Proof.
  induction l as [|b l IH]; intros a; cbn [fold_left].
  - repeat split; [lia|constructor|left; reflexivity].
  - destruct (IH (Z.max a b)) as (H1 & H2 & H3). repeat split.
    + lia.
    + constructor; [lia|assumption].
    + destruct H3 as [H3|H3]; [|right; right; assumption].
      rewrite H3. destruct (Z.max_spec a b) as [[_ E]|[_ E]]; rewrite E;
        [right; left|left]; reflexivity.
Qed.

Lemma fold_min_spec l : forall a,
  fold_left Z.min l a <= a /\
  Forall (fun x => fold_left Z.min l a <= x) l /\
  (fold_left Z.min l a = a \/ In (fold_left Z.min l a) l).
Proof.
  induction l as [|b l IH]; intros a; cbn [fold_left].
  - repeat split; [lia|constructor|left; reflexivity].
  - destruct (IH (Z.min a b)) as (H1 & H2 & H3). repeat split.
    + lia.
    + constructor; [lia|assumption].
    + destruct H3 as [H3|H3]; [|right; right; assumption].
      rewrite H3. destruct (Z.min_spec a b) as [[_ E]|[_ E]]; rewrite E;
        [left|right; left]; reflexivity.
Qed.

Lemma max_list_spec l : l <> [] ->
  In (max_list l) l /\ Forall (fun x => x <= max_list l) l.
Proof.
  destruct l as [|a l]; [congruence|]. intros _. cbn [max_list].
  destruct (fold_max_spec l a) as (H1 & H2 & H3). split.
  - destruct H3 as [->|H3]; [left; reflexivity|right; assumption].
  - constructor; assumption.
Qed.

Lemma min_list_spec l : l <> [] ->
  In (min_list l) l /\ Forall (fun x => min_list l <= x) l.
Proof.
  destruct l as [|a l]; [congruence|]. intros _. cbn [min_list].
  destruct (fold_min_spec l a) as (H1 & H2 & H3). split.
  - destruct H3 as [->|H3]; [left; reflexivity|right; assumption].
  - constructor; assumption.
Qed.

Lemma sum_between lo hi l :
  Forall (fun x => lo <= x) l -> Forall (fun x => x <= hi) l ->
  len l * lo <= sum l <= len l * hi.
Proof.
  unfold len. induction l as [|a l IH]; intros Hlo Hhi; [simpl; lia|].
  inversion Hlo; inversion Hhi; subst. specialize (IH ltac:(assumption) ltac:(assumption)).
  cbn [sum List.length]. lia.
Qed.

Lemma sort_reverse_nonempty l : l <> [] -> sort_reverse l <> [].
Proof.
  intros Hl Hs. pose proof (sort_reverse_perm l) as Hp. rewrite Hs in Hp.
  apply Permutation_sym, Permutation_nil in Hp. congruence.
Qed.

Lemma len_sort_reverse l : len (sort_reverse l) = len l.
Proof.
  unfold len. rewrite <- (Permutation_length (sort_reverse_perm l)). reflexivity.
Qed.

Lemma In_sort_reverse x l : In x (sort_reverse l) <-> In x l.
Proof.
  split; intros H.
  - eapply Permutation_in; [apply Permutation_sym, sort_reverse_perm|exact H].
  - eapply Permutation_in; [apply sort_reverse_perm|exact H].
Qed.

(** For a non-empty sequence set, the shortest and the longest contig are
    lengths of records, every record length lies between them, and so does
    the mean length, a float. *)
Theorem stats_extremes_and_mean file seqs st :
  _calculate_stats file seqs = inr st ->
  seqs <> [] ->
  (forall r, In r seqs -> seq_len r < 2 ^ 53) ->
  len seqs < 2 ^ 1000 ->
  exists lo hi m,
    dict_get "shortest_contig" st = Some (PyInt lo) /\
    dict_get "longest_contig" st = Some (PyInt hi) /\
    dict_get "mean_length" st = Some (PyFloat m) /\
    In lo (map seq_len seqs) /\ In hi (map seq_len seqs) /\
    (forall r, In r seqs -> lo <= seq_len r <= hi) /\
    int_le lo m = true /\ int_ge hi m = true.
Proof.
  intros H Hne Hlen Hnum.
  unfold _calculate_stats in H. cbv zeta in H.
  set (lengths := sort_reverse (map seq_len seqs)) in *.
  assert (Hlne : lengths <> []).
  { apply sort_reverse_nonempty. destruct seqs; [congruence|discriminate]. }
  destruct (max_list_spec lengths Hlne) as [Hmax_in Hmax].
  destruct (min_list_spec lengths Hlne) as [Hmin_in Hmin].
  pose proof (sum_between _ _ lengths Hmin Hmax) as Hsum.
  assert (Hn : len lengths = len seqs).
  { unfold lengths. rewrite len_sort_reverse. unfold len. rewrite length_map. reflexivity. }
  assert (Hn0 : 0 < len lengths).
  { rewrite Hn. unfold len. destruct seqs; [congruence|simpl; lia]. }
  assert (Hmin0 : 0 <= min_list lengths).
  { pose proof (sorted_lens_nonneg seqs) as Hp. fold lengths in Hp.
    rewrite Forall_forall in Hp. apply Hp. assumption. }
  assert (Hmax53 : max_list lengths < 2 ^ 53).
  { pose proof (proj1 (In_sort_reverse _ _) Hmax_in) as Hin.
    apply in_map_iff in Hin. destruct Hin as (r & Er & Hr).
    rewrite <- Er. apply Hlen. assumption. }
  rewrite Forall_forall in Hmax, Hmin.
  pose proof (Hmax _ Hmin_in) as Hminmax.
  inv_bind H. inv_bind H.
  replace (0 <? len lengths) with true in H by (symmetry; apply Z.ltb_lt; lia).
  destruct (int_truediv (sum lengths) (len lengths)) as [e|m] eqn:Em;
    [discriminate|]. cbn [bind] in H. unfold ret at 1 in H. cbn [bind] in H.
  inv_bind H. inv_bind H. inv_bind H. inv_bind H. inv_bind H.
  injection H as <-.
  exists (min_list lengths), (max_list lengths), m.
  cbn [dict_get String.eqb Ascii.eqb Bool.eqb].
  repeat split.
  - apply (proj1 (In_sort_reverse _ _)). assumption.
  - apply (proj1 (In_sort_reverse _ _)). assumption.
  - apply Hmin. apply (proj2 (In_sort_reverse _ _)). apply in_map. assumption.
  - apply Hmax. apply (proj2 (In_sort_reverse _ _)). apply in_map. assumption.
  - destruct (Z.eq_dec (sum lengths) 0) as [Ez|Ez].
    + rewrite Ez in Em. unfold int_truediv in Em.
      destruct (len lengths) eqn:El; try lia. injection Em as <-.
      simpl. apply Z.leb_le. nia.
    + pose proof (sum_nonneg lengths (sorted_lens_nonneg seqs)).
      apply (truediv_ge_int (sum lengths) (len lengths)); try lia. exact Em.
  - destruct (Z.eq_dec (sum lengths) 0) as [Ez|Ez].
    + rewrite Ez in Em. unfold int_truediv in Em.
      destruct (len lengths) eqn:El; try lia. injection Em as <-.
      simpl. apply Z.leb_le. lia.
    + pose proof (sum_nonneg lengths (sorted_lens_nonneg seqs)).
      destruct (truediv_le_int (sum lengths) (len lengths) (max_list lengths))
        as (f & Hf & Hge & _); try lia.
      rewrite Em in Hf. injection Hf as <-. exact Hge.
Qed.

Lemma stats_extremes_and_mean_witness :
  exists lo hi m,
    dict_get "shortest_contig" example_stats = Some (PyInt lo) /\
    dict_get "longest_contig" example_stats = Some (PyInt hi) /\
    dict_get "mean_length" example_stats = Some (PyFloat m) /\
    In lo (map seq_len example_records) /\ In hi (map seq_len example_records) /\
    (forall r, In r example_records -> lo <= seq_len r <= hi) /\
    int_le lo m = true /\ int_ge hi m = true.
Proof.
  apply (stats_extremes_and_mean "good.fasta"%string example_records example_stats).
  - vm_compute. reflexivity.
  - discriminate.
  - intros r [<-|[<-|[<-|[]]]]; vm_compute; reflexivity.
  - vm_compute. reflexivity.
Defined.

(** * The rank at which the loops stop *)

Lemma lx_loop_least t l : forall c i,
  match lx_loop t c i l with
  | Some j =>
      i <= j < i + len l /\
      int_ge (c + sum (firstn (S (Z.to_nat (j - i))) l)) t = true /\
      forall k, (k < Z.to_nat (j - i))%nat ->
                int_ge (c + sum (firstn (S k) l)) t = false
  | None =>
      forall k, (k < List.length l)%nat -> int_ge (c + sum (firstn (S k) l)) t = false
  end.
Proof.
  unfold len. induction l as [|a l IH]; intros c i; cbn [lx_loop].
  - intros k Hk. simpl in Hk. lia.
  - destruct (int_ge (c + a) t) eqn:Ha.
    + rewrite Z.sub_diag. cbn [Z.to_nat firstn sum List.length].
      repeat split; try lia.
      * rewrite Z.add_0_r. exact Ha.
    + specialize (IH (c + a) (i + 1)).
      destruct (lx_loop t (c + a) (i + 1) l) as [j|].
      * destruct IH as (Hb & Hr & Hbefore).
        replace (Z.to_nat (j - i)) with (S (Z.to_nat (j - (i + 1)))) by lia.
        cbn [List.length]. repeat split; try lia.
        -- cbn [firstn sum]. rewrite Z.add_assoc. exact Hr.
        -- intros [|k] Hk.
           ++ cbn [firstn sum]. rewrite Z.add_0_r. exact Ha.
           ++ cbn [firstn sum]. rewrite Z.add_assoc. apply Hbefore. lia.
      * intros [|k] Hk.
        -- cbn [firstn sum]. rewrite Z.add_0_r. exact Ha.
        -- cbn [firstn sum]. rewrite Z.add_assoc. apply IH. simpl in Hk. lia.
Qed.

(** [calculate_nx] and [_calculate_lx] stop at the same rank, the least one
    whose prefix sum reaches the float target: Lx is that rank and Nx the
    length at it.  When no prefix reaches the target, Nx is 0 and Lx the
    number of lengths. *)
Theorem nx_lx_least_rank lengths x n l :
  calculate_nx (sum lengths) lengths x = inr n ->
  _calculate_lx lengths x = inr l ->
  exists t,
    target_of (sum lengths) x = inr t /\
    ((1 <= l <= len lengths /\
      n = nth (Z.to_nat (l - 1)) lengths 0 /\
      int_ge (sum (firstn (Z.to_nat l) lengths)) t = true /\
      forall j, 1 <= j < l -> int_ge (sum (firstn (Z.to_nat j) lengths)) t = false)
     \/
     (l = len lengths /\ n = 0 /\
      forall j, 1 <= j <= len lengths ->
                int_ge (sum (firstn (Z.to_nat j) lengths)) t = false)).
Proof.
  unfold calculate_nx, _calculate_lx.
  destruct (target_of (sum lengths) x) as [e|t]; [discriminate|]. cbn [bind]. unfold ret.
  intros Hn Hl. exists t. split; [reflexivity|].
  rewrite (nx_loop_lx_loop t lengths 0 1) in Hn.
  pose proof (lx_loop_least t lengths 0 1) as H.
  destruct (lx_loop t 0 1 lengths) as [j|].
  - injection Hn as <-. injection Hl as <-. destruct H as (Hb & Hr & Hbefore).
    left. repeat split; try lia.
    + replace (Z.to_nat j) with (S (Z.to_nat (j - 1))) by lia. exact Hr.
    + intros i Hi. replace (Z.to_nat i) with (S (Z.to_nat (i - 1))) by lia.
      apply (Hbefore (Z.to_nat (i - 1))). lia.
  - injection Hn as <-. injection Hl as <-. right. repeat split.
    intros i Hi. replace (Z.to_nat i) with (S (Z.to_nat (i - 1))) by lia.
    apply (H (Z.to_nat (i - 1))). unfold len in Hi. lia.
Qed.

Lemma nx_lx_least_rank_witness :
  exists t,
    target_of (sum [100; 50; 30]) 90 = inr t /\
    ((1 <= 3 <= len [100; 50; 30] /\
      30 = nth (Z.to_nat (3 - 1)) [100; 50; 30] 0 /\
      int_ge (sum (firstn (Z.to_nat 3) [100; 50; 30])) t = true /\
      forall j, 1 <= j < 3 -> int_ge (sum (firstn (Z.to_nat j) [100; 50; 30])) t = false)
     \/
     (3 = len [100; 50; 30] /\ 30 = 0 /\
      forall j, 1 <= j <= len [100; 50; 30] ->
                int_ge (sum (firstn (Z.to_nat j) [100; 50; 30])) t = false)).
Proof.
  apply (nx_lx_least_rank [100; 50; 30] 90 30 3).
  - vm_compute. reflexivity.
  - vm_compute. reflexivity.
Defined.

(** * N50 and N90 between the extremes *)

Lemma calculate_nx_member lengths x :
  lengths <> [] -> Forall (fun l => 0 <= l) lengths -> sum lengths < 2 ^ 53 ->
  1 <= x <= 100 ->
  exists n, calculate_nx (sum lengths) lengths x = inr n /\ In n lengths.
Proof.
  intros Hne Hpos HT Hx. pose proof (sum_nonneg lengths Hpos) as HT0.
  destruct (target_of_reached (sum lengths) x ltac:(lia) Hx) as (t & Et & Hge).
  unfold calculate_nx. rewrite Et. cbn [bind]. unfold ret.
  destruct (lx_loop_reached t lengths 0 1 Hne Hge) as (j & Hj).
  rewrite (nx_loop_lx_loop t lengths 0 1), Hj.
  pose proof (lx_loop_bounds t lengths 0 1 j Hj) as Hb.
  eexists. split; [reflexivity|]. apply nth_In. unfold len in Hb. lia.
Qed.

(** For a non-empty sequence set of fewer than [2 ^ 53] bases, N50 and N90
    are lengths of records, and shortest <= N90 <= N50 <= longest. *)
Theorem stats_nx_between_extremes file seqs st :
  _calculate_stats file seqs = inr st ->
  seqs <> [] ->
  sum (map seq_len seqs) < 2 ^ 53 ->
  exists lo n90 n50 hi,
    dict_get "shortest_contig" st = Some (PyInt lo) /\
    dict_get "n90" st = Some (PyInt n90) /\
    dict_get "n50" st = Some (PyInt n50) /\
    dict_get "longest_contig" st = Some (PyInt hi) /\
    lo <= n90 /\ n90 <= n50 /\ n50 <= hi /\
    In n90 (map seq_len seqs) /\ In n50 (map seq_len seqs).
Proof.
  intros H Hne HT.
  destruct (stats_converts _ _ _ H) as [A HA].
  destruct (calculate_stats_inv _ _ _ H)
    as (gc & nc & mean & median & n50 & n90 & l50 & l90
        & _ & _ & H50 & H90 & L50 & L90 & ->).
  set (lengths := sort_reverse (map seq_len seqs)) in *.
  assert (Hlne : lengths <> []).
  { apply sort_reverse_nonempty. destruct seqs; [congruence|discriminate]. }
  pose proof (sorted_lens_nonneg seqs) as Hpos. fold lengths in Hpos.
  assert (HT' : sum lengths < 2 ^ 53) by (unfold lengths; rewrite sum_sort_reverse; exact HT).
  destruct (max_list_spec lengths Hlne) as [_ Hmax].
  destruct (min_list_spec lengths Hlne) as [_ Hmin].
  rewrite Forall_forall in Hmax, Hmin.
  destruct (calculate_nx_member lengths 50 Hlne Hpos HT' ltac:(lia)) as (m50 & E50 & I50).
  destruct (calculate_nx_member lengths 90 Hlne Hpos HT' ltac:(lia)) as (m90 & E90 & I90).
  rewrite H50 in E50. rewrite H90 in E90. injection E50 as <-. injection E90 as <-.
  destruct (nx_lx_monotone_conv lengths 50 90 A (sort_reverse_descending _) Hpos HA
              ltac:(lia) ltac:(lia) ltac:(lia))
    as (n1 & n2 & l1 & l2 & E1 & E2 & _ & _ & Hn & _).
  rewrite H50 in E1. rewrite H90 in E2. injection E1 as <-. injection E2 as <-.
  exists (min_list lengths), n90, n50, (max_list lengths).
  cbn [stats_dict dict_get String.eqb Ascii.eqb Bool.eqb].
  repeat split; auto.
  - apply (proj1 (In_sort_reverse _ _)). exact I90.
  - apply (proj1 (In_sort_reverse _ _)). exact I50.
Qed.

Lemma stats_nx_between_extremes_witness :
  exists lo n90 n50 hi,
    dict_get "shortest_contig" example_stats = Some (PyInt lo) /\
    dict_get "n90" example_stats = Some (PyInt n90) /\
    dict_get "n50" example_stats = Some (PyInt n50) /\
    dict_get "longest_contig" example_stats = Some (PyInt hi) /\
    lo <= n90 /\ n90 <= n50 /\ n50 <= hi /\
    In n90 (map seq_len example_records) /\ In n50 (map seq_len example_records).
Proof.
  apply (stats_nx_between_extremes "good.fasta"%string example_records example_stats).
  - vm_compute. reflexivity.
  - discriminate.
  - vm_compute. reflexivity.
Defined.

(** * [_calculate_stats] and the constructor return *)

Lemma percentage_total part total :
  0 <= part <= total -> total < 2 ^ 1000 -> exists v, percentage part total = inr v.
Proof.
  intros Hp Ht. unfold percentage. destruct (Z.ltb_spec 0 total) as [H0|H0].
  - destruct (ratio_bounds part total Hp ltac:(lia)) as (f & -> & Hle & Hge).
    cbn [bind]. destruct (mul_int_100_bounds f Hle Hge) as (p & -> & _).
    cbn [bind]. eauto.
  - eauto.
Qed.

Lemma truediv_total a b :
  0 <= a < 2 ^ 53 -> 0 < b < 2 ^ 1000 -> exists f, int_truediv a b = inr f.
Proof.
  intros Ha Hb. destruct (Z.eq_dec a 0) as [->|Ha0].
  - unfold int_truediv. destruct b; try lia. eexists. reflexivity.
  - destruct (truediv_le_int a b a ltac:(lia) Hb ltac:(lia) ltac:(nia)) as (f & Hf & _).
    eauto.
Qed.

Lemma nth_bounds (l : list Z) hi k :
  0 <= hi -> Forall (fun x => 0 <= x <= hi) l -> 0 <= nth k l 0 <= hi.
Proof.
  intros Hhi Hl. destruct (nth_in_or_default k l 0) as [Hin| ->]; [|lia].
  rewrite Forall_forall in Hl. apply Hl. exact Hin.
Qed.

Lemma np_median_total l :
  Forall (fun x => 0 <= x <= 2 ^ 1023) l -> exists v, np_median l = inr v.
Proof.
  intros Hl. unfold np_median.
  assert (Hs : Forall (fun x => 0 <= x <= 2 ^ 1023) (sort_reverse l)).
  { eapply Permutation_Forall; [apply sort_reverse_perm|exact Hl]. }
  assert (Hn : forall k, exists A, of_int (nth k (sort_reverse l) 0) = inr A).
  { intros k. apply of_int_total. apply nth_bounds; [lia|exact Hs]. }
  destruct (Nat.odd _).
  - destruct (Hn (List.length (sort_reverse l) / 2)%nat) as [A ->]. cbn [bind]. eauto.
  - destruct (Hn (List.length (sort_reverse l) / 2 - 1)%nat) as [A ->].
    destruct (Hn (List.length (sort_reverse l) / 2)%nat) as [B ->].
    cbn [bind]. destruct (of_int_total 2 ltac:(lia)) as [C ->]. cbn [bind]. eauto.
Qed.

Lemma sum_upper l x : Forall (fun a => 0 <= a) l -> In x l -> x <= sum l.
Proof.
  induction l as [|a l IH]; intros Hp Hx; [destruct Hx|].
  inversion Hp; subst. cbn [sum]. destruct Hx as [E|Hin].
  - pose proof (sum_nonneg l ltac:(assumption)). lia.
  - specialize (IH ltac:(assumption) Hin). lia.
Qed.

Lemma counts_within_total seqs :
  0 <= sum (map gc_count seqs) /\ 0 <= sum (map n_count seqs) /\
  sum (map gc_count seqs) + sum (map n_count seqs) <= sum (map seq_len seqs).
Proof.
  pose proof (count_if_bounds (residues seqs)) as (Cg & Cn & Cs).
  rewrite <- total_gc_residues, <- total_n_residues, <- total_length_residues,
    sum_sort_reverse in Cs.
  rewrite <- total_gc_residues in Cg. rewrite <- total_n_residues in Cn. lia.
Qed.

Lemma calculate_nx_total T lengths x :
  0 <= T <= 2 ^ 1023 -> 1 <= x <= 100 -> exists n, calculate_nx T lengths x = inr n.
Proof.
  intros HT Hx. destruct (of_int_total T HT) as [A HA].
  destruct (target_of_mono T x x A ltac:(lia) ltac:(lia) ltac:(lia) ltac:(lia) HA)
    as (t & _ & Et & _).
  unfold calculate_nx. rewrite Et. cbn [bind]. eauto.
Qed.

Lemma calculate_lx_total lengths x :
  0 <= sum lengths <= 2 ^ 1023 -> 1 <= x <= 100 ->
  exists n, _calculate_lx lengths x = inr n.
Proof.
  intros HT Hx. destruct (of_int_total _ HT) as [A HA].
  destruct (target_of_mono (sum lengths) x x A ltac:(lia) ltac:(lia) ltac:(lia)
              ltac:(lia) HA) as (t & _ & Et & _).
  unfold _calculate_lx. rewrite Et. cbn [bind]. eauto.
Qed.

(** Each item [_calculate_stats] computes is returned, none raises. *)
Lemma stats_components_return seqs :
  sum (map seq_len seqs) < 2 ^ 53 -> len seqs < 2 ^ 53 ->
  let lengths := sort_reverse (map seq_len seqs) in
  (exists gc, percentage (sum (map gc_count seqs)) (sum lengths) = inr gc) /\
  (exists nc, percentage (sum (map n_count seqs)) (sum lengths) = inr nc) /\
  (exists mean,
      (if 0 <? len lengths
       then m <- int_truediv (sum lengths) (len lengths) ;; ret (PyFloat m)
       else ret (PyInt 0)) = inr mean) /\
  (exists median,
      match lengths with [] => ret (PyInt 0) | _ => np_median lengths end
      = inr median) /\
  (exists n50, calculate_nx (sum lengths) lengths 50 = inr n50) /\
  (exists n90, calculate_nx (sum lengths) lengths 90 = inr n90) /\
  (exists l50, _calculate_lx lengths 50 = inr l50) /\
  (exists l90, _calculate_lx lengths 90 = inr l90).
Proof.
  intros HT Hn lengths.
  pose proof (sorted_lens_nonneg seqs) as Hpos. fold lengths in Hpos.
  pose proof (sum_nonneg lengths Hpos) as HT0.
  assert (Hsum : sum lengths = sum (map seq_len seqs)) by apply sum_sort_reverse.
  assert (Hlen : len lengths = len seqs).
  { unfold lengths. rewrite len_sort_reverse. unfold len. rewrite length_map. reflexivity. }
  destruct (counts_within_total seqs) as (Cg & Cn & Cs).
  assert (H1000 : sum lengths < 2 ^ 1000)
    by (apply Z.lt_trans with (2 ^ 53); [lia|reflexivity]).
  assert (HT1 : 0 <= sum lengths <= 2 ^ 1023).
  { split; [lia|]. apply Z.le_trans with (2 ^ 53); [lia|discriminate]. }
  split; [apply percentage_total; lia|].
  split; [apply percentage_total; lia|].
  split; [|split]; [| |repeat split].
  - destruct (Z.ltb_spec 0 (len lengths)); [|eauto].
    destruct (truediv_total (sum lengths) (len lengths)) as [m ->]; [lia| |cbn [bind]; eauto].
    split; [lia|]. apply Z.lt_trans with (2 ^ 53); [lia|reflexivity].
  - destruct lengths as [|a l'] eqn:El; [eauto|]. apply np_median_total.
    rewrite Forall_forall in *. intros y Hy. split; [auto|].
    apply Z.le_trans with (sum (a :: l')).
    + apply sum_upper; [apply Forall_forall; exact Hpos|exact Hy].
    + apply Z.le_trans with (2 ^ 53); [lia|discriminate].
  - apply calculate_nx_total; [exact HT1|lia].
  - apply calculate_nx_total; [exact HT1|lia].
  - apply calculate_lx_total; [exact HT1|lia].
  - apply calculate_lx_total; [exact HT1|lia].
Qed.

(** [_calculate_stats] raises nothing on a sequence set with fewer than
    [2 ^ 53] bases and records: no division by zero, no overflow. *)
Theorem calculate_stats_total file seqs :
  sum (map seq_len seqs) < 2 ^ 53 -> len seqs < 2 ^ 53 ->
  exists st, _calculate_stats file seqs = inr st.
Proof.
  intros HT Hn.
  destruct (stats_components_return seqs HT Hn)
    as ([gc Hgc] & [nc Hnc] & [mean Hmean] & [median Hmed]
        & [n50 H50] & [n90 H90] & [l50 L50] & [l90 L90]).
  unfold _calculate_stats. cbv zeta.
  rewrite Hgc. cbn [bind]. rewrite Hnc. cbn [bind].
  rewrite Hmean. cbn [bind]. rewrite Hmed. cbn [bind].
  rewrite H50. cbn [bind]. rewrite H90. cbn [bind].
  rewrite L50. cbn [bind]. rewrite L90. cbn [bind].
  eexists. reflexivity.
Qed.

Lemma calculate_stats_total_witness :
  exists st, _calculate_stats "good.fasta" example_records = inr st.
Proof.
  apply (calculate_stats_total "good.fasta"%string example_records).
  - vm_compute. reflexivity.
  - vm_compute. reflexivity.
Defined.

(** The constructor succeeds on every file that exists and parses to at
    least one record (below [2 ^ 53] bases and records), and keeps the
    parser's records. *)
Theorem init_succeeds w file seqs :
  path_exists w file = true -> SeqIO_parse w file = inr seqs -> seqs <> [] ->
  sum (map seq_len seqs) < 2 ^ 53 -> len seqs < 2 ^ 53 ->
  exists st,
    _calculate_stats (path_str w file) seqs = inr st /\
    __init__ w file =
      inr {| assembly_file := path_str w file; sequences := seqs; stats := st |}.
Proof.
  intros He Hp Hne HT Hn.
  destruct (stats_components_return seqs HT Hn)
    as ([gc Hgc] & [nc Hnc] & [mean Hmean] & [median Hmed]
        & [n50 H50] & [n90 H90] & [l50 L50] & [l90 L90]).
  assert (Hst : exists st, _calculate_stats (path_str w file) seqs = inr st).
  { unfold _calculate_stats. cbv zeta.
    rewrite Hgc. cbn [bind]. rewrite Hnc. cbn [bind].
    rewrite Hmean. cbn [bind]. rewrite Hmed. cbn [bind].
    rewrite H50. cbn [bind]. rewrite H90. cbn [bind].
    rewrite L50. cbn [bind]. rewrite L90. cbn [bind].
    eexists. reflexivity. }
  destruct Hst as [st Hst]. exists st. split; [exact Hst|].
  unfold __init__, _load_sequences. rewrite He, Hp. cbn [negb bind try_except].
  destruct seqs as [|r seqs]; [congruence|]. unfold ret. cbn [bind try_except].
  rewrite Hst. reflexivity.
Qed.

Lemma init_succeeds_witness :
  exists st,
    _calculate_stats (path_str example_world "good.fasta") example_records = inr st /\
    __init__ example_world "good.fasta" =
      inr {| assembly_file := path_str example_world "good.fasta";
             sequences := example_records; stats := st |}.
Proof.
  apply (init_succeeds example_world "good.fasta"%string example_records).
  - reflexivity.
  - reflexivity.
  - discriminate.
  - vm_compute. reflexivity.
  - vm_compute. reflexivity.
Defined.

(** * The Nx curve *)

Lemma descending_perm_eq l1 : forall l2,
  descending l1 -> descending l2 -> Permutation l1 l2 -> l1 = l2.
Proof.
  unfold descending. induction l1 as [|a l1 IH]; intros l2 H1 H2 Hp.
  - apply Permutation_nil in Hp. congruence.
  - destruct l2 as [|b l2].
    + apply Permutation_sym, Permutation_nil in Hp. discriminate.
    + inversion H1 as [|? ? S1 F1]; inversion H2 as [|? ? S2 F2]; subst.
      rewrite Forall_forall in F1, F2.
      assert (Hab : a = b).
      { assert (Ha : In a (b :: l2)) by (eapply Permutation_in; [exact Hp|left; reflexivity]).
        assert (Hb : In b (a :: l1))
          by (eapply Permutation_in; [apply Permutation_sym; exact Hp|left; reflexivity]).
        destruct Ha as [Ha|Ha]; [congruence|]. destruct Hb as [Hb|Hb]; [congruence|].
        specialize (F1 _ Hb). specialize (F2 _ Ha). lia. }
      subst b. f_equal. apply IH; auto. eapply Permutation_cons_inv. exact Hp.
Qed.

Lemma sort_reverse_idem l : descending l -> sort_reverse l = l.
Proof.
  intros H. apply descending_perm_eq; [apply sort_reverse_descending|exact H|].
  apply Permutation_sym, sort_reverse_perm.
Qed.

Lemma nx_point lengths x :
  lengths <> [] -> Forall (fun l => 0 <= l) lengths -> sum lengths < 2 ^ 53 ->
  1 <= x <= 100 ->
  exists t n, target_of (sum lengths) x = inr t /\ nx_loop t 0 lengths = Some n /\
              In n lengths.
Proof.
  intros Hne Hpos HT Hx. pose proof (sum_nonneg lengths Hpos) as HT0.
  destruct (target_of_reached (sum lengths) x ltac:(lia) Hx) as (t & Et & Hge).
  destruct (lx_loop_reached t lengths 0 1 Hne Hge) as (j & Hj).
  pose proof (nx_loop_lx_loop t lengths 0 1) as Hnx. rewrite Hj in Hnx.
  pose proof (lx_loop_bounds t lengths 0 1 j Hj) as Hb.
  exists t. eexists. repeat split; [exact Et|exact Hnx|].
  apply nth_In. unfold len in Hb. lia.
Qed.

Lemma nx_curve_points lengths xs :
  lengths <> [] -> Forall (fun l => 0 <= l) lengths -> sum lengths < 2 ^ 53 ->
  Forall (fun x => 1 <= x <= 100) xs ->
  exists ys, nx_curve (sum lengths) lengths xs = inr ys /\
             Forall2 (fun x y => calculate_nx (sum lengths) lengths x = inr y /\
                                 In y lengths) xs ys.
Proof.
  intros Hne Hpos HT. induction xs as [|x xs IH]; intros Hxs.
  - exists []. split; [reflexivity|constructor].
  - inversion Hxs as [|? ? Hx Hxs']; subst.
    destruct (IH Hxs') as (ys & Eys & Hys).
    destruct (nx_point lengths x Hne Hpos HT Hx) as (t & n & Et & En & Hin).
    exists (n :: ys). cbn [nx_curve]. rewrite Et. cbn [bind]. rewrite Eys. cbn [bind].
    rewrite En. split; [reflexivity|]. constructor; [|exact Hys].
    split; [|exact Hin]. unfold calculate_nx. rewrite Et. cbn [bind]. rewrite En.
    reflexivity.
Qed.

Lemma range_spec a b :
  List.length (range a b) = Z.to_nat (b - a) /\
  forall i, (i < Z.to_nat (b - a))%nat -> nth i (range a b) 0 = a + Z.of_nat i.
Proof.
  unfold range. split.
  - rewrite length_map, length_seq. reflexivity.
  - intros i Hi.
    transitivity (a + Z.of_nat (nth i (seq 0 (Z.to_nat (b - a))) 0%nat)).
    + rewrite <- (map_nth (fun i => a + Z.of_nat i)). apply nth_indep.
      rewrite length_map, length_seq. exact Hi.
    + rewrite seq_nth by exact Hi. reflexivity.
Qed.

Lemma range_bounds a b x : In x (range a b) -> a <= x < b.
Proof.
  unfold range. intros (i & <- & Hi%in_seq)%in_map_iff. lia.
Qed.

Lemma Forall2_nth {A B} (R : A -> B -> Prop) xs ys da db :
  Forall2 R xs ys -> forall i, (i < List.length xs)%nat -> R (nth i xs da) (nth i ys db).
Proof.
  induction 1 as [|x y xs ys Hxy H IH]; intros i Hi; [simpl in Hi; lia|].
  destruct i as [|i]; [exact Hxy|]. cbn [nth]. apply IH. simpl in Hi. lia.
Qed.

Lemma Forall2_In_r {A B} (R : A -> B -> Prop) xs ys y :
  Forall2 R xs ys -> In y ys -> exists x, In x xs /\ R x y.
Proof.
  induction 1 as [|x0 y0 xs ys Hxy H IH]; intros Hin; [destruct Hin|].
  destruct Hin as [<-|Hin]; [exists x0; split; [left; reflexivity|exact Hxy]|].
  destruct (IH Hin) as (x & Hx & HR). exists x. split; [right; exact Hx|exact HR].
Qed.

(** What [plot_nx_curve] does on the statistics of a built analyzer. *)
Lemma plot_nx_curve_inv w file a output_file :
  __init__ w file = inr a ->
  sum (map seq_len (sequences a)) < 2 ^ 53 ->
  exists lengths n50 ys out,
    dict_get "lengths" (stats a) = Some (PyList lengths) /\
    dict_get "n50" (stats a) = Some (PyInt n50) /\
    sort_reverse lengths = lengths /\
    descending lengths /\ Forall (fun l => 0 <= l) lengths /\
    sum lengths < 2 ^ 53 /\
    calculate_nx (sum lengths) lengths 50 = inr n50 /\
    plot_nx_curve lengths (PyInt n50) output_file
    = inr ({| plot_x := range 1 100; plot_y := ys; axhline_y := PyInt n50 |}, out) /\
    Forall2 (fun x y => calculate_nx (sum lengths) lengths x = inr y /\ In y lengths)
            (range 1 100) ys.
Proof.
  intros H HT. destruct (init_inv w file a H) as (_ & seqs & st & Hl & Hst & ->).
  cbn [sequences stats] in *.
  destruct (calculate_stats_inv _ _ _ Hst)
    as (gc & nc & mean & median & n50 & n90 & l50 & l90
        & _ & _ & H50 & _ & _ & _ & ->).
  set (lengths := sort_reverse (map seq_len seqs)) in *.
  assert (Hne : lengths <> []).
  { apply sort_reverse_nonempty. unfold _load_sequences, try_except in Hl.
    destruct (SeqIO_parse w file) as [e|[|r s]]; cbn [bind] in Hl; try discriminate.
    injection Hl as <-. discriminate. }
  pose proof (sorted_lens_nonneg seqs) as Hpos. fold lengths in Hpos.
  assert (HT' : sum lengths < 2 ^ 53)
    by (unfold lengths; rewrite sum_sort_reverse; exact HT).
  assert (Hidem : sort_reverse lengths = lengths)
    by (apply sort_reverse_idem, sort_reverse_descending).
  assert (Hxs : Forall (fun x => 1 <= x <= 100) (range 1 100)).
  { apply Forall_forall. intros x Hx%range_bounds. lia. }
  destruct (nx_curve_points lengths (range 1 100) Hne Hpos HT' Hxs) as (ys & Eys & Hys).
  exists lengths, n50, ys. eexists.
  split; [reflexivity|]. split; [reflexivity|].
  split; [exact Hidem|]. split; [apply sort_reverse_descending|].
  split; [exact Hpos|]. split; [exact HT'|]. split; [exact H50|].
  split; [|exact Hys].
  unfold plot_nx_curve. cbv zeta. rewrite Hidem, Eys. cbn [bind].
  unfold len. rewrite (Forall2_length Hys), Z.eqb_refl. reflexivity.
Qed.

(** On a built analyzer (fewer than [2 ^ 53] bases) [plot_nx_curve] does
    not raise: every x from 1 to 99 gets a point, so [plt.plot] receives two
    lists of 99 values, and every plotted value is a contig length. *)
Theorem plot_nx_curve_complete w file a output_file :
  __init__ w file = inr a ->
  sum (map seq_len (sequences a)) < 2 ^ 53 ->
  exists lengths n50 fig out,
    dict_get "lengths" (stats a) = Some (PyList lengths) /\
    dict_get "n50" (stats a) = Some (PyInt n50) /\
    plot_nx_curve lengths (PyInt n50) output_file = inr (fig, out) /\
    len (plot_x fig) = 99 /\ len (plot_y fig) = 99 /\
    forall y, In y (plot_y fig) -> In y lengths.
Proof.
  intros H HT.
  destruct (plot_nx_curve_inv w file a output_file H HT)
    as (lengths & n50 & ys & out & Hl & Hn & _ & _ & _ & _ & _ & Hp & Hys).
  exists lengths, n50. eexists _, out.
  split; [exact Hl|]. split; [exact Hn|]. split; [exact Hp|]. cbn [plot_x plot_y].
  pose proof (Forall2_length Hys) as Hlen.
  destruct (range_spec 1 100) as [Hr _]. unfold len. rewrite <- Hlen, Hr.
  repeat split.
  intros y Hy. destruct (Forall2_In_r _ _ _ _ Hys Hy) as (x & _ & _ & Hin). exact Hin.
Qed.

Lemma plot_nx_curve_complete_witness :
  exists lengths n50 fig out,
    dict_get "lengths" (stats example_analyzer) = Some (PyList lengths) /\
    dict_get "n50" (stats example_analyzer) = Some (PyInt n50) /\
    plot_nx_curve lengths (PyInt n50) (Some "nx_curve.png"%string) = inr (fig, out) /\
    len (plot_x fig) = 99 /\ len (plot_y fig) = 99 /\
    forall y, In y (plot_y fig) -> In y lengths.
Proof.
  apply (plot_nx_curve_complete example_world "good.fasta"%string example_analyzer).
  - vm_compute. reflexivity.
  - vm_compute. reflexivity.
Defined.

(** The curve [plot_nx_curve] draws never increases with x, and at x = 50
    it passes through the horizontal N50 line. *)
Theorem plot_nx_curve_shape w file a output_file :
  __init__ w file = inr a ->
  sum (map seq_len (sequences a)) < 2 ^ 53 ->
  exists lengths n50 fig out,
    dict_get "lengths" (stats a) = Some (PyList lengths) /\
    dict_get "n50" (stats a) = Some (PyInt n50) /\
    plot_nx_curve lengths (PyInt n50) output_file = inr (fig, out) /\
    (forall i j, (i <= j < 99)%nat -> nth j (plot_y fig) 0 <= nth i (plot_y fig) 0) /\
    nth 49 (plot_x fig) 0 = 50 /\
    axhline_y fig = PyInt (nth 49 (plot_y fig) 0).
Proof.
  intros H HT.
  destruct (plot_nx_curve_inv w file a output_file H HT)
    as (lengths & n50 & ys & out & Hl & Hn & _ & Hd & Hpos & HT' & H50 & Hp & Hys).
  exists lengths, n50. eexists _, out.
  split; [exact Hl|]. split; [exact Hn|]. split; [exact Hp|]. cbn [plot_x plot_y axhline_y].
  destruct (range_spec 1 100) as [Hr Hnth].
  change (Z.to_nat (100 - 1)) with 99%nat in Hr, Hnth.
  assert (Hat : forall i, (i < 99)%nat ->
                          calculate_nx (sum lengths) lengths (1 + Z.of_nat i)
                          = inr (nth i ys 0)).
  { intros i Hi. pose proof (Forall2_nth _ _ _ 0 0 Hys i ltac:(lia)) as [Hc _].
    rewrite (Hnth i Hi) in Hc. exact Hc. }
  split; [|split].
  - intros i j Hij.
    destruct (of_int_total (sum lengths)) as [A HA].
    { pose proof (sum_nonneg lengths Hpos). split; [lia|].
      apply Z.le_trans with (2 ^ 53); [lia|discriminate]. }
    destruct (nx_lx_monotone_conv lengths (1 + Z.of_nat i) (1 + Z.of_nat j) A Hd Hpos HA
                ltac:(lia) ltac:(lia) ltac:(lia))
      as (n1 & n2 & l1 & l2 & E1 & E2 & _ & _ & Hle & _).
    rewrite (Hat i ltac:(lia)) in E1. rewrite (Hat j ltac:(lia)) in E2.
    injection E1 as <-. injection E2 as <-. exact Hle.
  - apply (Hnth 49%nat). lia.
  - pose proof (Hat 49%nat ltac:(lia)) as E. change (1 + Z.of_nat 49) with 50 in E.
    rewrite H50 in E. injection E as <-. reflexivity.
Qed.

Lemma plot_nx_curve_shape_witness :
  exists lengths n50 fig out,
    dict_get "lengths" (stats example_analyzer) = Some (PyList lengths) /\
    dict_get "n50" (stats example_analyzer) = Some (PyInt n50) /\
    plot_nx_curve lengths (PyInt n50) None = inr (fig, out) /\
    (forall i j, (i <= j < 99)%nat -> nth j (plot_y fig) 0 <= nth i (plot_y fig) 0) /\
    nth 49 (plot_x fig) 0 = 50 /\
    axhline_y fig = PyInt (nth 49 (plot_y fig) 0).
Proof.
  apply (plot_nx_curve_shape example_world "good.fasta"%string example_analyzer).
  - vm_compute. reflexivity.
  - vm_compute. reflexivity.
Defined.

(** The list stored under ['lengths'] is already in descending order:
    sorting it again, as [plot_nx_curve] and the cumulative plot of
    [plot_length_distribution] do, returns it unchanged. *)
Theorem stats_lengths_already_sorted file seqs st :
  _calculate_stats file seqs = inr st ->
  exists lengths,
    dict_get "lengths" st = Some (PyList lengths) /\ sort_reverse lengths = lengths.
Proof.
  intros H. destruct (calculate_stats_inv _ _ _ H)
    as (gc & nc & mean & median & n50 & n90 & l50 & l90 & _ & _ & _ & _ & _ & _ & ->).
  eexists. split; [reflexivity|]. apply sort_reverse_idem, sort_reverse_descending.
Qed.

Lemma stats_lengths_already_sorted_witness :
  exists lengths,
    dict_get "lengths" example_stats = Some (PyList lengths) /\
    sort_reverse lengths = lengths.
Proof.
  apply (stats_lengths_already_sorted "good.fasta"%string example_records example_stats).
  vm_compute. reflexivity.
Defined.

(** * Rows and outputs of the comparison *)

Lemma load_all_names w files :
  Forall2 (fun a n => exists file, In file files /\ __init__ w file = inr a /\
                                   n = path_stem w file)
          (fst (fst (load_all w files))) (snd (fst (load_all w files))).
Proof.
  induction files as [|file files IH]; [constructor|].
  cbn [load_all]. destruct (load_all w files) as [[analyzers names] out].
  cbn [fst snd] in *.
  assert (IH' : Forall2 (fun a n => exists f, In f (file :: files) /\
                                    __init__ w f = inr a /\ n = path_stem w f)
                        analyzers names).
  { eapply Forall2_impl; [|exact IH]. intros a n (f & Hf & Ha & Hn).
    exists f. split; [right; exact Hf|]. split; assumption. }
  destruct (__init__ w file) as [e|a] eqn:E; cbn [fst snd]; [exact IH'|].
  constructor; [|exact IH']. exists file. split; [left; reflexivity|]. split; auto.
Qed.

Lemma load_all_count w files :
  len (fst (fst (load_all w files))) + len (snd (load_all w files)) = len files /\
  len (snd (fst (load_all w files))) = len (fst (fst (load_all w files))).
Proof.
  unfold len. induction files as [|file files [IH1 IH2]]; [split; reflexivity|].
  cbn [load_all]. destruct (load_all w files) as [[analyzers names] out].
  cbn [fst snd] in *.
  destruct (__init__ w file) as [e|a]; cbn [fst snd List.length]; lia.
Qed.

Lemma Forall2_combine_map {A B C} (P : A -> B -> Prop) (Q : A -> C -> Prop)
      (f : A * B -> C) xs ys :
  Forall2 P xs ys -> (forall a b, P a b -> Q a (f (a, b))) ->
  Forall2 Q xs (map f (combine xs ys)).
Proof.
  intros H HPQ. induction H as [|x y xs ys Hxy H IH]; [constructor|].
  cbn [combine map]. constructor; [apply HPQ; exact Hxy|exact IH].
Qed.

(** The row of one analyzer in [comparison_data]. *)
Lemma comparison_row w file a name :
  __init__ w file = inr a ->
  let row := dict_set "assembly" (PyStr name) (get_basic_stats a) in
  dict_keys row = basic_keys ++ ["assembly"%string] /\
  dict_get "assembly" row = Some (PyStr name) /\
  (forall k, In k basic_keys -> dict_get k row = dict_get k (stats a)) /\
  dict_keys (select_cols comparison_cols row) = comparison_cols /\
  (forall k, In k comparison_cols ->
             dict_get k (select_cols comparison_cols row) = dict_get k row).
Proof.
  intros H. destruct (init_inv w file a H) as (_ & seqs & st & _ & Hst & ->).
  destruct (calculate_stats_inv _ _ _ Hst)
    as (gc & nc & mean & median & n50 & n90 & l50 & l90 & _ & _ & _ & _ & _ & _ & ->).
  cbv zeta. unfold get_basic_stats. cbn [stats].
  split; [reflexivity|]. split; [reflexivity|]. split; [|split; [reflexivity|]].
  - intros k Hk. cbn [basic_keys In] in Hk.
    repeat (destruct Hk as [<-|Hk]; [reflexivity|]). destruct Hk.
  - intros k Hk. cbn [comparison_cols In] in Hk.
    repeat (destruct Hk as [<-|Hk]; [reflexivity|]). destruct Hk.
Qed.

Lemma compare_assemblies_inv w files output_dir :
  2 <= len (loaded w files) ->
  exists names comparison_data,
    compare_assemblies w files output_dir =
      warnings w files
      ++ [Stdout (String "010" "Assembly Comparison:"); Stdout (rule 80);
          Table comparison_cols (map (select_cols comparison_cols) comparison_data);
          Stdout (rule 80);
          BarFigure names (loaded w files)]
      ++ (if truthy output_dir then
            let dir := match output_dir with Some d => d | None => EmptyString end in
            [SaveFig (path_join w dir "assembly_comparison.png");
             Stdout ("Comparison plot saved to: "
                     ++ path_join w dir "assembly_comparison.png")%string;
             ToCsv (path_join w dir "assembly_comparison.tsv") comparison_data;
             Stdout ("Comparison table saved to: "
                     ++ path_join w dir "assembly_comparison.tsv")%string]
          else [PltShow]) /\
    Forall2 (comparison_row_ok w files) (loaded w files) comparison_data.
Proof.
  intros Hge. destruct (load_all_spec w files) as (Ha & Hw & _).
  pose proof (load_all_names w files) as Hn.
  unfold compare_assemblies.
  destruct (load_all w files) as [[analyzers names] out]. cbn [fst snd] in *.
  subst analyzers out.
  replace (len (loaded w files) <? 2) with false by (symmetry; apply Z.ltb_ge; lia).
  eexists names, _. split; [reflexivity|].
  apply (Forall2_combine_map _ _ _ _ _ Hn).
  intros a n (file & Hin & Hinit & ->). cbn [fst snd].
  destruct (comparison_row w file a (path_stem w file) Hinit) as (K & A & B & C & D).
  exists file. repeat split; assumption.
Qed.





(** The first loop of [compare_assemblies] accounts for every input: each
    one gives either an analyzer or one printed error line; names and
    analyzers stay aligned, each name being the stem of the file its
    analyzer was built from. *)
Theorem load_all_accounts_for_every_input w files :
  len (fst (fst (load_all w files))) + len (snd (load_all w files)) = len files /\
  len (snd (fst (load_all w files))) = len (fst (fst (load_all w files))) /\
  Forall2 (fun a n => exists file, In file files /\ __init__ w file = inr a /\
                                   n = path_stem w file)
          (fst (fst (load_all w files))) (snd (fst (load_all w files))) /\
  Forall (fun ev => exists file e,
                      In file files /\ __init__ w file = inl e /\
                      ev = Stdout ("Error processing " ++ file ++ ": " ++ exn_str e))
         (snd (load_all w files)).
Proof.
  destruct (load_all_count w files) as [H1 H2].
  split; [exact H1|]. split; [exact H2|]. split; [apply load_all_names|].
  destruct (load_all_spec w files) as (_ & -> & _).
  apply Forall_forall. intros ev Hin. unfold warnings in Hin.
  apply in_flat_map in Hin. destruct Hin as (f & Hf & Hin).
  destruct (__init__ w f) as [e|a] eqn:E; [|destruct Hin].
  destruct Hin as [<-|[]]. exists f, e. auto.
Qed.

(** * The command line *)

Lemma warnings_lines w files ev :
  In ev (warnings w files) ->
  exists file e, In file files /\ __init__ w file = inl e /\
                 ev = Stdout ("Error processing " ++ file ++ ": " ++ exn_str e).
Proof.
  intros Hin. unfold warnings in Hin. apply in_flat_map in Hin.
  destruct Hin as (f & Hf & Hin).
  destruct (__init__ w f) as [e|a] eqn:E; [|destruct Hin].
  destruct Hin as [<-|[]]. exists f, e. auto.
Qed.

Lemma compare_assemblies_few w files output_dir :
  len (loaded w files) < 2 ->
  compare_assemblies w files output_dir =
    warnings w files ++ [Stdout "Need at least 2 valid assemblies for comparison"].
Proof.
  intros Hlt. destruct (load_all_spec w files) as (Ha & Hw & _).
  unfold compare_assemblies.
  destruct (load_all w files) as [[analyzers names] out]. cbn [fst snd] in *.
  subst analyzers out.
  replace (len (loaded w files) <? 2) with true by (symmetry; apply Z.ltb_lt; lia).
  reflexivity.
Qed.

Lemma loaded_le w files : len (loaded w files) <= len files.
Proof.
  unfold len. induction files as [|f files IH]; [reflexivity|].
  cbn [loaded flat_map]. fold (loaded w files).
  destruct (__init__ w f); rewrite ?length_app; cbn [List.length app]; lia.
Qed.

Lemma compare_assemblies_stdout w files output_dir line :
  In (Stdout line) (compare_assemblies w files output_dir) ->
  line <> "Error: Please provide at least one input file"%string.
Proof.
  intros Hin.
  assert (Hw : In (Stdout line) (warnings w files) ->
               line <> "Error: Please provide at least one input file"%string).
  { intros (f & e & _ & _ & [= ->])%warnings_lines. cbn [append]. discriminate. }
  assert (Hcases : len (loaded w files) < 2 \/ 2 <= len (loaded w files)) by lia.
  destruct Hcases as [Hlt|Hge].
  - rewrite (compare_assemblies_few w files output_dir Hlt) in Hin.
    apply in_app_or in Hin. destruct Hin as [Hin|[[= <-]|[]]]; [auto|discriminate].
  - destruct (compare_assemblies_inv w files output_dir Hge) as (names & data & E & _).
    rewrite E in Hin. apply in_app_or in Hin. destruct Hin as [Hin|Hin]; [auto|].
    cbn [app In] in Hin.
    destruct Hin as [[= <-]|[[= <-]|[Hin|[[= <-]|[Hin|Hin]]]]];
      try discriminate.
    destruct (truthy output_dir); cbn [In] in Hin.
    + destruct Hin as [Hin|[[= <-]|[Hin|[[= <-]|[]]]]]; try discriminate.
    + destruct Hin as [Hin|[]]. discriminate.
Qed.

Ltac main_unfold :=
  unfold main, when, call, io_bind, io_try, lift, emit, io_ret.

Ltac main_step :=
  match goal with
  | |- context [match ?x with _ => _ end] =>
      lazymatch x with
      | context [match _ with _ => _ end] => fail
      | _ => destruct x eqn:?
      end
  | |- context [if ?x then _ else _] =>
      lazymatch x with
      | context [if _ then _ else _] => fail
      | _ => destruct x eqn:?
      end
  end.

Ltac in_cases Hin :=
  repeat first [contradiction | discriminate Hin | destruct Hin as [Hin|Hin]].

Ltac in_compare Hin :=
  apply in_map_iff in Hin; destruct Hin as (? & [= ->] & Hin);
  apply compare_assemblies_stdout in Hin; congruence.

(** [argparse] guarantees at least one input ([nargs='+']), and then the
    last branch of [main] is dead: the message about a missing input file is
    never printed. *)
Theorem main_never_reports_missing_input w mkdir run args :
  args_input args <> [] ->
  ~ In (Out (Stdout "Error: Please provide at least one input file"))
       (fst (main w mkdir run args)).
Proof.
  intros Hne. destruct args as [input output json tsv plot compare bins].
  cbn [args_input] in Hne. main_unfold.
  cbn [args_input args_output args_json args_tsv args_plot args_compare args_bins].
  destruct input as [|f [|g rest]]; [congruence| |].
  - change (len [f] =? 1) with true. cbn [andb nth].
    destruct compare; cbn [negb orb].
    + change (1 <? len [f]) with false. cbn [orb].
      repeat main_step; cbn [fst app In]; rewrite ?app_nil_r; cbn [fst app In];
        intros Hin; in_cases Hin; try solve [in_compare Hin].
    + repeat main_step; cbn [fst app In]; intros Hin; in_cases Hin.
  - assert (E1 : (len (f :: g :: rest) =? 1) = false)
      by (apply Z.eqb_neq; unfold len; cbn [List.length]; lia).
    assert (E2 : (1 <? len (f :: g :: rest)) = true)
      by (apply Z.ltb_lt; unfold len; cbn [List.length]; lia).
    rewrite E1, E2. cbn [andb orb].
    repeat main_step; cbn [fst app In]; rewrite ?app_nil_r; cbn [fst app In];
      intros Hin; in_cases Hin; try solve [in_compare Hin].
Qed.

Lemma main_never_reports_missing_input_witness :
  ~ In (Out (Stdout "Error: Please provide at least one input file"))
       (fst (main example_world example_mkdir example_run example_args)).
Proof.
  apply (main_never_reports_missing_input example_world example_mkdir example_run
           example_args).
  discriminate.
Defined.



(** [--compare] with a single input runs [compare_assemblies], which can
    only report that two valid assemblies are needed; [main] returns
    without calling [sys.exit]. *)
Theorem main_compare_single_input w mkdir run args file :
  args_input args = [file] -> args_compare args = true ->
  (truthy (args_output args) = true -> mkdir (str_of (args_output args)) = inr tt) ->
  main w mkdir run args =
    ((if truthy (args_output args) then [Mkdir (str_of (args_output args))] else [])
     ++ map Out (warnings w [file]
                 ++ [Stdout "Need at least 2 valid assemblies for comparison"]),
     inr tt).
Proof.
  destruct args as [input output json tsv plot compare bins].
  cbn [args_input args_output args_json args_tsv args_plot args_compare args_bins].
  intros -> -> Hmk. main_unfold.
  cbn [args_input args_output args_json args_tsv args_plot args_compare args_bins].
  change (len [file] =? 1) with true. cbn [andb negb orb].
  rewrite Bool.orb_true_r.
  rewrite (compare_assemblies_few w [file] output).
  - destruct (truthy output); [rewrite (Hmk eq_refl)|]; reflexivity.
  - pose proof (loaded_le w [file]) as Hle. change (len [file]) with 1 in Hle. lia.
Qed.

Lemma main_compare_single_input_witness :
  main example_world example_mkdir example_run example_compare_args =
    ([Mkdir "out"]
     ++ map Out (warnings example_world ["good.fasta"%string]
                 ++ [Stdout "Need at least 2 valid assemblies for comparison"]),
     inr tt).
Proof.
  apply (main_compare_single_input example_world example_mkdir example_run
           example_compare_args "good.fasta"%string).
  - reflexivity.
  - reflexivity.
  - reflexivity.
Defined.



(** * Statistics of a built analyzer *)

Lemma np_median_float l v : np_median l = inr v -> exists f, v = PyFloat f.
Proof.
  unfold np_median. destruct (Nat.odd _); intros H.
  - inv_bind H. injection H as <-. eauto.
  - inv_bind H. inv_bind H. inv_bind H. injection H as <-. eauto.
Qed.

(** A built analyzer holds at least one record, so the defaults for empty
    input are never taken: [num_contigs] is at least 1 and the mean and
    median lengths are floats. *)
Theorem init_stats_of_nonempty w file a :
  __init__ w file = inr a ->
  sequences a <> [] /\
  1 <= len (sequences a) /\
  exists mean median,
    dict_get "num_contigs" (stats a) = Some (PyInt (len (sequences a))) /\
    dict_get "mean_length" (stats a) = Some (PyFloat mean) /\
    dict_get "median_length" (stats a) = Some (PyFloat median) /\
    dict_get "total_length" (stats a) = Some (PyInt (sum (map seq_len (sequences a)))).
Proof.
  intros H. destruct (init_inv w file a H) as (_ & seqs & st & Hl & Hst & ->).
  cbn [sequences stats].
  assert (Hne : seqs <> []).
  { unfold _load_sequences, try_except in Hl.
    destruct (SeqIO_parse w file) as [e|[|r s]]; cbn [bind] in Hl; try discriminate.
    injection Hl as <-. discriminate. }
  assert (Hn : 1 <= len seqs).
  { unfold len. destruct seqs; [congruence|]. cbn [List.length]. lia. }
  split; [exact Hne|]. split; [exact Hn|].
  unfold _calculate_stats in Hst. cbv zeta in Hst.
  set (lengths := sort_reverse (map seq_len seqs)) in *.
  assert (Hlen : len lengths = len seqs).
  { unfold lengths. rewrite len_sort_reverse. unfold len. rewrite length_map. reflexivity. }
  assert (Hlne : lengths <> []).
  { apply sort_reverse_nonempty. destruct seqs; [congruence|discriminate]. }
  inv_bind Hst. inv_bind Hst.
  replace (0 <? len lengths) with true in Hst by (symmetry; apply Z.ltb_lt; lia).
  destruct (int_truediv (sum lengths) (len lengths)) as [e|m] eqn:Em;
    [discriminate|]. cbn [bind] in Hst. unfold ret at 1 in Hst. cbn [bind] in Hst.
  destruct lengths as [|l0 ls] eqn:El; [congruence|].
  destruct (np_median (l0 :: ls)) as [e|md] eqn:Emd; [discriminate|].
  cbn [bind] in Hst. destruct (np_median_float _ _ Emd) as [f ->].
  inv_bind Hst. inv_bind Hst. inv_bind Hst. inv_bind Hst.
  injection Hst as <-. exists m, f.
  cbn [dict_get String.eqb Ascii.eqb Bool.eqb].
  rewrite Hlen. repeat split.
  change (l0 + sum ls) with (sum (l0 :: ls)).
  rewrite <- El. unfold lengths. rewrite sum_sort_reverse. reflexivity.
Qed.

Lemma init_stats_of_nonempty_witness :
  sequences example_analyzer <> [] /\
  1 <= len (sequences example_analyzer) /\
  exists mean median,
    dict_get "num_contigs" (stats example_analyzer)
    = Some (PyInt (len (sequences example_analyzer))) /\
    dict_get "mean_length" (stats example_analyzer) = Some (PyFloat mean) /\
    dict_get "median_length" (stats example_analyzer) = Some (PyFloat median) /\
    dict_get "total_length" (stats example_analyzer)
    = Some (PyInt (sum (map seq_len (sequences example_analyzer)))).
Proof.
  apply (init_stats_of_nonempty example_world "good.fasta"%string example_analyzer).
  vm_compute. reflexivity.
Defined.

(** The characters counted as G/C and as N are disjoint: the two counts
    are non-negative and together at most the length, per record and in
    total. *)
Theorem gc_and_n_counts_within_length :
  (forall r, 0 <= gc_count r /\ 0 <= n_count r /\ gc_count r + n_count r <= seq_len r) /\
  (forall seqs,
      0 <= sum (map gc_count seqs) /\ 0 <= sum (map n_count seqs) /\
      sum (map gc_count seqs) + sum (map n_count seqs) <= sum (map seq_len seqs)).
Proof.
  split.
  - intros r. pose proof (counts_within_total [r]) as H. cbn [map sum] in H. lia.
  - apply counts_within_total.
Qed.
